(** * alfred: streaming transcription service and verbal-response extraction

    A shallow embedding of [pkg/whispercpp] (config.go, model.go, service.go)
    and of [ExtractVerbalResponse] from [pkg/tts/service.go], with the
    properties of the accumulator loop, the ingestion queue, the
    transcription worker, the broadcaster and the service lifecycle.

    Conventions.
    - A Go [string] is its byte sequence, [list ascii]; [len] is [length].
    - A Go [int] is a [Z]; arithmetic that can leave the 64-bit range wraps
      ([GoInt.wrap64]).
    - A [float32]/[float64] is its IEEE-754 bit pattern; the service never
      computes with sample values.
    - A buffered channel is its queue, its capacity and a closed flag.
    - A method that holds [s.mu] for its whole body ([Initialize],
      [transcribeAudio], [Close]) is one atomic transition of the service
      state; the interleaving of workers around the lock is modelled
      separately in [Module Workers]. *)

From Stdlib Require Import ZArith List Lia Ascii String Bool.
From stdpp Require Import base option list gmap.
Import ListNotations.

(* ===================================================================== *)
(** * Go integers *)
(* ===================================================================== *)

Module GoInt.

(** Two's-complement wrap-around of a 64-bit [int]. *)
Definition wrap64 (z : Z) : Z := ((z + 2 ^ 63) mod 2 ^ 64 - 2 ^ 63)%Z.

(** [a * b] on [int]. *)
Definition mul (a b : Z) : Z := wrap64 (a * b).

(** [a / b] on [int]: truncated toward zero. *)
Definition div (a b : Z) : Z := wrap64 (Z.quot a b).

(** [len(x)] of a slice or string, as an [int]. *)
Definition len {A} (l : list A) : Z := Z.of_nat (length l).

End GoInt.

(* ===================================================================== *)
(** * The functions of Go's [strings] package that the code calls *)
(* ===================================================================== *)

Module GoStrings.

Abbreviation gostring := (list ascii).

(** A string literal of the source. *)
Definition lit (s : string) : gostring := list_ascii_of_string s.

Definition code (c : ascii) : N := N_of_ascii c.

(** [strings.HasPrefix(s, prefix)] *)
Fixpoint HasPrefix (s prefix : gostring) : bool :=
  match prefix, s with
  | [], _ => true
  | p :: prefix', c :: s' => Ascii.eqb c p && HasPrefix s' prefix'
  | _ :: _, [] => false
  end.

(** [strings.Contains(s, substr)] *)
Fixpoint Contains (s substr : gostring) : bool :=
  HasPrefix s substr ||
  match s with
  | [] => false
  | _ :: s' => Contains s' substr
  end.

(** [strings.Cut(s, sep)]: the text before and after the first instance of
    [sep], if there is one. *)
Fixpoint Cut (s sep : gostring) : option (gostring * gostring) :=
  if HasPrefix s sep then Some ([], drop (length sep) s)
  else match s with
       | [] => None
       | c :: s' =>
           match Cut s' sep with
           | Some (before, after) => Some (c :: before, after)
           | None => None
           end
       end.

(** [strings.Split(s, sep)] for a non-empty [sep]. [skip] counts the bytes
    of a separator still to pass over, [cur] is the piece being read,
    newest byte first. *)
Fixpoint Split_go (sep : gostring) (skip : nat) (cur : gostring) (s : gostring)
    : list gostring :=
  match s with
  | [] => [rev cur]
  | c :: s' =>
      match skip with
      | S k => Split_go sep k cur s'
      | O => if HasPrefix s sep
             then rev cur :: Split_go sep (length sep - 1) [] s'
             else Split_go sep 0 (c :: cur) s'
      end
  end.

Definition Split (s sep : gostring) : list gostring := Split_go sep 0 [] s.

(** [strings.Join(elems, sep)] *)
Fixpoint Join (elems : list gostring) (sep : gostring) : gostring :=
  match elems with
  | [] => []
  | [e] => e
  | e :: rest => e ++ sep ++ Join rest sep
  end.

(** The ASCII white space of [strings.TrimSpace]'s fast path:
    tab, newline, vertical tab, form feed, carriage return, space. *)
Definition asciiSpace (c : ascii) : bool :=
  let n := code c in ((9 <=? n) && (n <=? 13) || (n =? 32))%N.

(** UTF-8 encodings of the other runes of [unicode.IsSpace]:
    U+0085 and U+00A0 take two bytes; U+1680, U+2000..U+200A, U+2028,
    U+2029, U+202F, U+205F and U+3000 take three. *)
Definition space2 (a b : ascii) : bool :=
  ((code a =? 0xC2) && ((code b =? 0x85) || (code b =? 0xA0)))%N.

Definition space3 (a b c : ascii) : bool :=
  ((code a =? 0xE1) && (code b =? 0x9A) && (code c =? 0x80)
   || (code a =? 0xE2) && (code b =? 0x80) &&
        ((0x80 <=? code c) && (code c <=? 0x8A)
         || (code c =? 0xA8) || (code c =? 0xA9) || (code c =? 0xAF))
   || (code a =? 0xE2) && (code b =? 0x81) && (code c =? 0x9F)
   || (code a =? 0xE3) && (code b =? 0x80) && (code c =? 0x80))%N.

(** [strings.TrimLeftFunc(s, unicode.IsSpace)]: a rune that is not a space,
    or a byte that starts no valid encoding, ends the trimming. *)
Fixpoint trimLeft (s : gostring) : gostring :=
  match s with
  | [] => []
  | a :: s1 =>
      if asciiSpace a then trimLeft s1
      else match s1 with
           | [] => s
           | b :: s2 =>
               if space2 a b then trimLeft s2
               else match s2 with
                    | [] => s
                    | c :: s3 => if space3 a b c then trimLeft s3 else s
                    end
           end
  end.

(** [TrimRightFunc] on the reversed string: the last rune comes first, its
    bytes in reverse order. *)
Fixpoint trimLeft_rev (s : gostring) : gostring :=
  match s with
  | [] => []
  | c :: s1 =>
      if asciiSpace c then trimLeft_rev s1
      else match s1 with
           | [] => s
           | b :: s2 =>
               if space2 b c then trimLeft_rev s2
               else match s2 with
                    | [] => s
                    | a :: s3 => if space3 a b c then trimLeft_rev s3 else s
                    end
           end
  end.

Definition trimRight (s : gostring) : gostring := rev (trimLeft_rev (rev s)).

(** [strings.TrimSpace(s)] *)
Definition TrimSpace (s : gostring) : gostring := trimRight (trimLeft s).

Section Unicode.

(** [strings.Map(unicode.ToLower, s)], which [strings.ToLower] falls back
    to on a string with a byte outside ASCII; it rests on the Unicode case
    tables of the Go distribution. *)
Variable mapToLower : gostring -> gostring.

Definition isASCII (s : gostring) : bool := forallb (fun c => (code c <? 128)%N) s.

Definition lowerByte (c : ascii) : ascii :=
  if ((65 <=? code c) && (code c <=? 90))%N
  then ascii_of_N (code c + 32)
  else c.

(** [strings.ToLower(s)] *)
Definition ToLower (s : gostring) : gostring :=
  if isASCII s then map lowerByte s else mapToLower s.

End Unicode.

End GoStrings.

(* ===================================================================== *)
(** * pkg/whispercpp *)
(* ===================================================================== *)

Module Whisper.

Export GoStrings.

(** IEEE-754 bit patterns. *)
Definition float32 : Type := Z.
Definition float64 : Type := Z.

(** ** config.go *)

Record Config := mkConfig {
  ModelPath : gostring;
  Threads : Z;
  MaxAudioLen : Z;
  SampleRate : Z;
  Language : gostring;
  EnableVAD : bool;
  VADThreshold : float32;
  WakeWord : gostring
}.

Definition DefaultConfig : Config := {|
  ModelPath := lit "/Users/zakicole/alfred/models/ggml-base.en.bin";
  Threads := 4%Z;
  MaxAudioLen := 30%Z;
  SampleRate := 16000%Z;
  Language := lit "en";
  EnableVAD := true;
  VADThreshold := 0x3F000000%Z;  (* 0.5 *)
  WakeWord := lit "alfred"
|}.

(** ** service.go: the accumulator loop [processAudio] *)

(** [bufferSize := s.config.SampleRate * 3] *)
Definition bufferSize (cfg : Config) : Z := GoInt.mul (SampleRate cfg) 3.

(** [minBufferSize := s.config.SampleRate / 2] *)
Definition minBufferSize (cfg : Config) : Z := GoInt.div (SampleRate cfg) 2.

(** The case the [select] of one loop iteration takes. A receive from the
    closed queue is [RecvAudio []]. *)
Inductive selectCase :=
| CtxDone                              (* <-ctx.Done() *)
| RecvAudio (data : list float32)      (* data := <-s.audioQueue *)
| TimeAfter.                           (* <-time.After(500 * time.Millisecond) *)

(** What one iteration does: leave the loop, or go round again with the new
    [audioBuffer] after spawning [go s.transcribeAudio(w)] for each [w]. *)
Inductive iteration :=
| Return
| Continue (audioBuffer : list float32) (spawned : list (list float32)).

Definition processAudio_body (cfg : Config) (audioBuffer : list float32)
    (c : selectCase) : iteration :=
  match c with
  | CtxDone => Return
  | RecvAudio data =>
      let audioBuffer := audioBuffer ++ data in
      if (bufferSize cfg <=? GoInt.len audioBuffer)%Z
      then Continue [] [audioBuffer]
      else Continue audioBuffer []
  | TimeAfter =>
      if (minBufferSize cfg <=? GoInt.len audioBuffer)%Z
      then Continue [] [audioBuffer]
      else Continue audioBuffer []
  end.

(** The state of the loop between two iterations. *)
Record loop := mkLoop {
  exited : bool;                          (* the goroutine has returned *)
  audioBuffer : list float32;             (* the open window *)
  dispatched : list (list float32)        (* windows handed to workers, oldest first *)
}.

Definition loop_step (cfg : Config) (l : loop) (c : selectCase) : loop :=
  if exited l then l
  else match processAudio_body cfg (audioBuffer l) c with
       | Return => mkLoop true (audioBuffer l) (dispatched l)
       | Continue b ws => mkLoop false b (dispatched l ++ ws)
       end.

(** [processAudio] run against the cases its [select] takes, from the state
    [var audioBuffer []float32]. *)
Definition processAudio_from (cfg : Config) (l : loop) (cs : list selectCase) : loop :=
  foldl (loop_step cfg) l cs.

Definition processAudio (cfg : Config) (cs : list selectCase) : loop :=
  processAudio_from cfg (mkLoop false [] []) cs.

(** ** Channels, errors, outcomes *)

Record chan (A : Type) := mkChan {
  chan_buf : list A;       (* queued values, oldest first *)
  chan_cap : nat;          (* make(chan A, cap) *)
  chan_closed : bool
}.
Arguments mkChan {A}.
Arguments chan_buf {A}.
Arguments chan_cap {A}.
Arguments chan_closed {A}.

Definition make_chan {A} (cap : nat) : chan A := mkChan [] cap false.

(** A send can proceed without waiting: there is room in the buffer. *)
Definition chan_has_room {A} (c : chan A) : bool :=
  length (chan_buf c) <? chan_cap c.

Definition chan_push {A} (c : chan A) (v : A) : chan A :=
  mkChan (chan_buf c ++ [v]) (chan_cap c) (chan_closed c).

(** [close(c)]; [None] is the run-time panic "close of closed channel". *)
Definition chan_close {A} (c : chan A) : option (chan A) :=
  if chan_closed c then None else Some (mkChan (chan_buf c) (chan_cap c) true).

Inductive error :=
| ErrServiceNotRunning      (* fmt.Errorf("service not running") *)
| ErrAudioQueueFull         (* fmt.Errorf("audio queue full") *)
| ErrModelNotInitialized    (* fmt.Errorf("model not initialized") *)
| ErrCreateContext          (* fmt.Errorf("failed to create whisper context: %w", err) *)
| ErrProcessAudio.          (* fmt.Errorf("failed to process audio: %w", err) *)

Inductive panic :=
| SendOnClosedChannel
| CloseOfClosedChannel.

(** How a call ends: it returns, it panics, or it waits on a channel. *)
Inductive outcome (A : Type) :=
| Returns (a : A)
| Panics (p : panic)
| Blocks.
Arguments Returns {A}.
Arguments Panics {A}.
Arguments Blocks {A}.

(** ** model.go *)

(** [Model.model] is the handle of the loaded whisper.cpp model;
    [m_loaded = false] is the nil handle. *)
Record Model := mkModel {
  m_config : Config;
  m_loaded : bool
}.

(** What the whisper.cpp binding does with a window of samples: creating
    the context fails, processing fails, or it yields the texts of the
    segments that [NextSegment] returns until its first error. *)
Inductive whisperRun :=
| NewContextFails
| ProcessFails
| Segments (texts : list gostring).

(** ** service.go: the data *)

Record TranscriptionResult := mkResult {
  Text : gostring;
  IsFinal : bool;
  IsWakeWord : bool;
  Confidence : float64
}.

(** The zero value of a [float64] field: +0. *)
Definition zeroFloat64 : float64 := 0%Z.

(** [encoding/json] leaves an [omitempty] float out when it equals 0 (+0 or -0). *)
Definition float64_isZero (x : float64) : bool :=
  (Z.land x 0x7FFFFFFFFFFFFFFF =? 0)%Z.

(** The keys of the JSON object [conn.WriteJSON(result)] sends. *)
Definition jsonKeys (r : TranscriptionResult) : list gostring :=
  [lit "text"; lit "isFinal"; lit "isWakeWord"]
  ++ (if float64_isZero (Confidence r) then [] else [lit "confidence"]).

(** What is written to a websocket. *)
Inductive wsMessage :=
| MsgConfig (cfg : Config)
| MsgResult (r : TranscriptionResult).

(** A [*websocket.Conn]: closed by [conn.Close()], [conn_broken] when the
    peer is gone and a write to it fails; [conn_written] is what the peer
    has been sent. *)
Record Conn := mkConn {
  conn_closed : bool;
  conn_broken : bool;
  conn_written : list wsMessage
}.

#[export] Instance Conn_inhabited : Inhabited Conn := populate (mkConn false false []).

(** [conn.WriteJSON(v)] for a value that [encoding/json] accepts: the
    connection afterwards and whether the write failed. Every result a
    worker builds is such a value (its [Confidence] is 0), and so is a
    configuration whose [VADThreshold] is finite; for a NaN or an
    infinity the encoder returns an error on a healthy connection too,
    which is not modelled here. *)
Definition WriteJSON (c : Conn) (v : wsMessage) : Conn * bool :=
  if conn_closed c || conn_broken c then (c, true)
  else (mkConn (conn_closed c) (conn_broken c) (conn_written c ++ [v]), false).

(** [conn.Close()] *)
Definition Conn_Close (c : Conn) : Conn :=
  mkConn true (conn_broken c) (conn_written c).

(** The [WhisperService] struct, with the objects its fields point to:
    [sockets] holds the connections by address (an address not in the map
    is a connection nothing has touched), [contexts] the contexts
    [Initialize] has made and whether each is cancelled. Each context
    drives one [processAudio] and one [broadcastResults] goroutine. *)
Record WhisperService := mkService {
  config : Config;
  model : option Model;
  audioQueue : chan (list float32);
  results : chan TranscriptionResult;
  cancelFunc : option nat;
  running : bool;
  connections : gmap nat bool;
  sockets : gmap nat Conn;
  contexts : list bool
}.

Definition set_model (m : option Model) (s : WhisperService) : WhisperService :=
  mkService (config s) m (audioQueue s) (results s) (cancelFunc s) (running s)
            (connections s) (sockets s) (contexts s).

Definition set_audioQueue (q : chan (list float32)) (s : WhisperService) : WhisperService :=
  mkService (config s) (model s) q (results s) (cancelFunc s) (running s)
            (connections s) (sockets s) (contexts s).

Definition set_results (r : chan TranscriptionResult) (s : WhisperService) : WhisperService :=
  mkService (config s) (model s) (audioQueue s) r (cancelFunc s) (running s)
            (connections s) (sockets s) (contexts s).

Definition set_connections (m : gmap nat bool) (s : WhisperService) : WhisperService :=
  mkService (config s) (model s) (audioQueue s) (results s) (cancelFunc s) (running s)
            m (sockets s) (contexts s).

Definition set_sockets (m : gmap nat Conn) (s : WhisperService) : WhisperService :=
  mkService (config s) (model s) (audioQueue s) (results s) (cancelFunc s) (running s)
            (connections s) m (contexts s).

(** [NewWhisperService(cfg)] where the model file is found at
    [cfg.ModelPath] and loads (otherwise the call returns an error and no
    service); a nil [cfg] is [DefaultConfig()]. [socks] are the
    connections that exist. *)
Definition NewWhisperService (cfg : option Config) (socks : gmap nat Conn)
    : WhisperService :=
  let cfg := default DefaultConfig cfg in
  mkService cfg (Some (mkModel cfg true)) (make_chan 1000) (make_chan 100)
            None false ∅ socks [].

(** ** service.go: the methods *)

Definition Initialize (s : WhisperService) : WhisperService :=
  if running s then s
  else mkService (config s) (model s) (audioQueue s) (results s)
                 (Some (length (contexts s))) true
                 (connections s) (sockets s) (contexts s ++ [false]).

Definition ProcessAudio (s : WhisperService) (audioData : list float32)
    : WhisperService * outcome (option error) :=
  if negb (running s) then (s, Returns (Some ErrServiceNotRunning))
  else
    (* select { case s.audioQueue <- audioData: ...; default: ... } *)
    if chan_closed (audioQueue s) then (s, Panics SendOnClosedChannel)
    else if chan_has_room (audioQueue s)
    then (set_audioQueue (chan_push (audioQueue s) audioData) s, Returns None)
    else (s, Returns (Some ErrAudioQueueFull)).

Section Engine.

Variable mapToLower : gostring -> gostring.
Variable whisper : list float32 -> whisperRun.

(** [Model.Transcribe] *)
Definition Model_Transcribe (m : Model) (samples : list float32)
    : gostring + error :=
  if negb (m_loaded m) then inr ErrModelNotInitialized
  else match whisper samples with
       | NewContextFails => inr ErrCreateContext
       | ProcessFails => inr ErrProcessAudio
       | Segments texts =>
           (* out += seg.Text + " " *)
           inl (foldl (fun out t => out ++ (t ++ lit " ")) [] texts)
       end.

Definition lowerText (text : gostring) : gostring :=
  ToLower mapToLower (TrimSpace text).

Definition isWakeWord (text : gostring) : bool :=
  Contains (lowerText text) (lit "initiate alfred protocol")
  || Contains (lowerText text) (lit "hi alfred")
  || Contains (lowerText text) (lit "hey alfred").

(** How a transcription worker leaves [transcribeAudio] when it returns. *)
Inductive workerExit :=
| ModelNotInitialized                       (* logged, nothing sent *)
| TranscriptionError (e : error)            (* logged, nothing sent *)
| Emitted (r : TranscriptionResult).

Definition transcribeAudio (s : WhisperService) (audioData : list float32)
    : WhisperService * outcome workerExit :=
  match model s with
  | None => (s, Returns ModelNotInitialized)
  | Some m =>
      match Model_Transcribe m audioData with
      | inr e => (s, Returns (TranscriptionError e))
      | inl text =>
          let result := mkResult text true (isWakeWord text) zeroFloat64 in
          (* s.results <- result *)
          if chan_closed (results s) then (s, Panics SendOnClosedChannel)
          else if chan_has_room (results s)
          then (set_results (chan_push (results s) result) s, Returns (Emitted result))
          else (s, Blocks)
      end
  end.

End Engine.

Definition AddWebSocket (s : WhisperService) (conn : nat) : WhisperService :=
  set_connections (<[conn := true]> (connections s)) s.

Definition RemoveWebSocket (s : WhisperService) (conn : nat) : WhisperService :=
  set_connections (delete conn (connections s)) s.

(** The body of the loop of [BroadcastResult] for one connection. *)
Definition deliver (result : TranscriptionResult) (s : WhisperService) (conn : nat)
    : WhisperService :=
  match WriteJSON (sockets s !!! conn) (MsgResult result) with
  | (c, false) => set_sockets (<[conn := c]> (sockets s)) s
  | (c, true) =>
      set_connections (delete conn (connections s))
        (set_sockets (<[conn := Conn_Close c]> (sockets s)) s)
  end.

(** [BroadcastResult] visiting the registered connections in [order]; Go
    leaves the order of a [range] over a map open. The loop body deletes
    only the key it is visiting, so every key is visited once. *)
Definition BroadcastResult_in (order : list nat) (s : WhisperService)
    (result : TranscriptionResult) : WhisperService :=
  foldl (deliver result) s order.

Definition BroadcastResult (s : WhisperService) (result : TranscriptionResult)
    : WhisperService :=
  BroadcastResult_in (elements (dom (connections s))) s result.

(** [Close]: the state it leaves, also where it panics half-way. *)
Definition Close (s : WhisperService) : WhisperService * outcome unit :=
  let ctxs := match cancelFunc s with
              | Some i => <[i := true]> (contexts s)
              | None => contexts s
              end in
  let socks := foldl (fun m conn => <[conn := Conn_Close (m !!! conn)]> m)
                     (sockets s) (elements (dom (connections s))) in
  let s1 := mkService (config s) (model s) (audioQueue s) (results s)
                      (cancelFunc s) false ∅ socks ctxs in
  match chan_close (audioQueue s) with
  | None => (s1, Panics CloseOfClosedChannel)
  | Some q =>
      let s2 := set_audioQueue q s1 in
      match chan_close (results s) with
      | None => (s2, Panics CloseOfClosedChannel)
      | Some r => (set_model None (set_results r s2), Returns tt)
      end
  end.

(** ** Sequences of calls on one service *)

Inductive call :=
| CallInitialize
| CallProcessAudio (audioData : list float32)
| CallTranscribeAudio (audioData : list float32)
| CallAddWebSocket (conn : nat)
| CallRemoveWebSocket (conn : nat)
| CallBroadcastResult (result : TranscriptionResult)
| CallClose.

Section Calls.

Variable mapToLower : gostring -> gostring.
Variable whisper : list float32 -> whisperRun.

(** The service after a call, however the call ended. *)
Definition exec (s : WhisperService) (c : call) : WhisperService :=
  match c with
  | CallInitialize => Initialize s
  | CallProcessAudio d => fst (ProcessAudio s d)
  | CallTranscribeAudio d => fst (transcribeAudio mapToLower whisper s d)
  | CallAddWebSocket conn => AddWebSocket s conn
  | CallRemoveWebSocket conn => RemoveWebSocket s conn
  | CallBroadcastResult r => BroadcastResult s r
  | CallClose => fst (Close s)
  end.

Definition execs (s : WhisperService) (cs : list call) : WhisperService :=
  foldl exec s cs.

End Calls.

(** ** service.go: [broadcastResults] *)

(** A receive [<-c]: the oldest queued value; the zero value from a closed
    and drained channel; [None] when the receive would wait. *)
Definition chan_recv {A} (zero : A) (c : chan A) : option (A * chan A) :=
  match chan_buf c with
  | v :: rest => Some (v, mkChan rest (chan_cap c) (chan_closed c))
  | [] => if chan_closed c then Some (zero, c) else None
  end.

(** The zero value of the struct. *)
Definition zeroResult : TranscriptionResult := mkResult [] false false zeroFloat64.

(** The case the [select] of [broadcastResults] takes. *)
Inductive broadcastCase :=
| BroadcastCtxDone          (* <-ctx.Done() *)
| RecvResult.               (* result := <-s.results *)

(** One iteration: the goroutine returns, or goes round again. A case
    that is not ready is not taken: the service is as it was. *)
Definition broadcastResults_body (s : WhisperService) (c : broadcastCase)
    : option WhisperService :=
  match c with
  | BroadcastCtxDone => None
  | RecvResult =>
      match chan_recv zeroResult (results s) with
      | Some (result, r) => Some (BroadcastResult (set_results r s) result)
      | None => Some s
      end
  end.

(** [broadcastResults] against the cases its [select] takes: the service
    afterwards and whether the goroutine has returned. *)
Fixpoint broadcastResults (s : WhisperService) (cs : list broadcastCase)
    : WhisperService * bool :=
  match cs with
  | [] => (s, false)
  | c :: cs' =>
      match broadcastResults_body s c with
      | None => (s, true)
      | Some s' => broadcastResults s' cs'
      end
  end.

(** ** service.go: [handleWebSocket] *)

(** What [conn.ReadMessage()] gives the handler. *)
Inductive readResult :=
| ReadFails                              (* err != nil: closed or broken *)
| ReadMessage (message : gostring).

(** Where the handler goroutine is after some of its steps. *)
Inductive handlerStatus :=
| Reading                                (* in the read loop *)
| Returned                               (* returned; the deferred teardown has run *)
| HandlerPanicked (p : panic).

(** The deferred [s.RemoveWebSocket(conn); conn.Close()]. *)
Definition handleWebSocket_teardown (s : WhisperService) (conn : nat) : WhisperService :=
  let s' := RemoveWebSocket s conn in
  set_sockets (<[conn := Conn_Close (sockets s' !!! conn)]> (sockets s')) s'.

Section Handler.

(** [json.Unmarshal(message, &audioData)] into a [[]float32]; [None] is an
    error. *)
Variable unmarshal : gostring -> option (list float32).

(** The config message, before the loop. *)
Definition handleWebSocket_start (s : WhisperService) (conn : nat)
    : WhisperService * handlerStatus :=
  match WriteJSON (sockets s !!! conn) (MsgConfig (config s)) with
  | (_, true) => (handleWebSocket_teardown s conn, Returned)
  | (c, false) => (set_sockets (<[conn := c]> (sockets s)) s, Reading)
  end.

(** One turn of the read loop, on what [conn.ReadMessage()] returned. The
    counter [messageCount] only chooses what is logged. *)
Definition handleWebSocket_read (s : WhisperService) (conn : nat) (r : readResult)
    : WhisperService * handlerStatus :=
  match r with
  | ReadFails => (handleWebSocket_teardown s conn, Returned)
  | ReadMessage message =>
      match unmarshal message with
      | None => (s, Reading)                         (* logged; continue *)
      | Some audioData =>
          match ProcessAudio s audioData with
          | (s', Returns _) => (s', Reading)         (* an error is logged *)
          | (s', Panics p) => (handleWebSocket_teardown s' conn, HandlerPanicked p)
          | (s', Blocks) => (s', Reading)
          end
      end
  end.

Fixpoint handleWebSocket_loop (s : WhisperService) (conn : nat) (rs : list readResult)
    : WhisperService * handlerStatus :=
  match rs with
  | [] => (s, Reading)
  | r :: rs' =>
      match handleWebSocket_read s conn r with
      | (s', Reading) => handleWebSocket_loop s' conn rs'
      | done => done
      end
  end.

(** [handleWebSocket(conn)] against what its reads return. *)
Definition handleWebSocket (s : WhisperService) (conn : nat) (rs : list readResult)
    : WhisperService * handlerStatus :=
  match handleWebSocket_start s conn with
  | (s', Reading) => handleWebSocket_loop s' conn rs
  | done => done
  end.

End Handler.

(** ** handler.go *)

(** Why [NewWhisperService] returns no service. *)
Inductive initError :=
| ModelFileNotFound            (* "model file not found: %s" *)
| ModelInitFailed.             (* "failed to initialize whisper model: %w" *)

(** An HTTP answer of the handlers. *)
Inductive response :=
| MethodNotAllowed                          (* 405 *)
| ServiceUnavailable                        (* 503 *)
| BadRequest                                (* 400 *)
| InternalServerError (e : error)           (* 500, err.Error() *)
| OK (result : TranscriptionResult).        (* 200, the result as JSON *)

Section Handlers.

(** Whether the model of a configuration is found and loads. *)
Variable loadModel : Config -> option initError.

(** [NewWhisperService(cfg)] with its errors. *)
Definition NewWhisperService_or_error (cfg : option Config) (socks : gmap nat Conn)
    : WhisperService + initError :=
  match loadModel (default DefaultConfig cfg) with
  | Some e => inr e
  | None => inl (NewWhisperService cfg socks)
  end.

(** [InitWhisperService(config)] on the package variable [whisperService]:
    the variable afterwards and the error returned. *)
Definition InitWhisperService (whisperService : option WhisperService)
    (socks : gmap nat Conn) (cfg : option Config)
    : option WhisperService * option initError :=
  match whisperService with
  | Some _ => (whisperService, None)
  | None =>
      match NewWhisperService_or_error cfg socks with
      | inr e => (None, Some e)
      | inl service => (Some (Initialize service), None)
      end
  end.

(** [json.NewDecoder(r.Body).Decode(&request)]: the [audioData] of a
    well-formed body. *)
Variable decode : gostring -> option (list float32).

(** [TranscribeHandler] on a request with method [method] and body [body]. *)
Definition TranscribeHandler (whisperService : option WhisperService)
    (method body : gostring) : option WhisperService * outcome response :=
  if negb (bool_decide (method = lit "POST")) then (whisperService, Returns MethodNotAllowed)
  else
    match whisperService with
    | None => (None, Returns ServiceUnavailable)
    | Some service =>
        match decode body with
        | None => (whisperService, Returns BadRequest)
        | Some audioData =>
            match ProcessAudio service audioData with
            | (s', Panics p) => (Some s', Panics p)
            | (s', Blocks) => (Some s', Blocks)
            | (s', Returns (Some e)) => (Some s', Returns (InternalServerError e))
            | (s', Returns None) =>
                (* result := <-service.results *)
                match chan_recv zeroResult (results s') with
                | None => (Some s', Blocks)
                | Some (result, r) => (Some (set_results r s'), Returns (OK result))
                end
            end
        end
    end.

End Handlers.

(** ** Everything that happens to one service *)

Inductive step :=
| StepCall (c : call)                                (* a method call *)
| StepBroadcastRecv                                  (* [broadcastResults] takes the receive case *)
| StepHandlerStart (conn : nat)                      (* [handleWebSocket] sends the config *)
| StepHandlerRead (conn : nat) (r : readResult)      (* one turn of its read loop *)
| StepTranscribeHandler (body : gostring).           (* a POST to [TranscribeHandler] *)

Section Steps.

Variable mapToLower : gostring -> gostring.
Variable whisper : list float32 -> whisperRun.
Variable unmarshal : gostring -> option (list float32).
Variable decode : gostring -> option (list float32).

(** The service after a step, however the step ended. *)
Definition do_step (s : WhisperService) (st : step) : WhisperService :=
  match st with
  | StepCall c => exec mapToLower whisper s c
  | StepBroadcastRecv => default s (broadcastResults_body s RecvResult)
  | StepHandlerStart conn => fst (handleWebSocket_start s conn)
  | StepHandlerRead conn r => fst (handleWebSocket_read unmarshal s conn r)
  | StepTranscribeHandler body =>
      default s (fst (TranscribeHandler decode (Some s) (lit "POST") body))
  end.

Definition do_steps (s : WhisperService) (sts : list step) : WhisperService :=
  foldl do_step s sts.

End Steps.

End Whisper.

(* ===================================================================== *)
(** * Goroutines around [s.mu] *)
(* ===================================================================== *)

(** [transcribeAudio], [Close] and [Initialize] each start with
    [s.mu.Lock()] and [defer s.mu.Unlock()]. Here every goroutine running
    one of them advances one step at a time, in any interleaving; a
    [sync.Mutex] is taken only when it is free. *)
Module Workers.

(** Where a goroutine in [transcribeAudio] stands. *)
Inductive workerPc :=
| AtLock            (* before s.mu.Lock() has returned *)
| AtModelCheck      (* if s.model == nil *)
| InTranscribe      (* inside s.model.Transcribe(audioData) *)
| AtSend            (* s.results <- result *)
| WorkerDone.       (* returned; the deferred Unlock has run *)

(** Where a goroutine in [Close] or [Initialize] stands. *)
Inductive callPc :=
| CallAtLock
| InBody
| CallDone.

Inductive goroutine :=
| Worker (p : workerPc)
| Closer (p : callPc)
| Initializer (p : callPc).

(** What a step does to the mutex. *)
Inductive lockAction := Acquire | Keep | Release.

(** The goroutine is between its [Lock] and its [Unlock]. *)
Definition holds (g : goroutine) : bool :=
  match g with
  | Worker AtModelCheck | Worker InTranscribe | Worker AtSend => true
  | Closer InBody | Initializer InBody => true
  | _ => false
  end.

(** A goroutine as [go f(...)] starts it. *)
Definition starting (g : goroutine) : bool :=
  match g with
  | Worker AtLock | Closer CallAtLock | Initializer CallAtLock => true
  | _ => false
  end.

(** One step of one goroutine: [gstep loaded g a g' loaded'], where
    [loaded] says whether [s.model] is non-nil. *)
Inductive gstep : bool -> goroutine -> lockAction -> goroutine -> bool -> Prop :=
| worker_lock m :
    gstep m (Worker AtLock) Acquire (Worker AtModelCheck) m
| worker_model_nil :
    gstep false (Worker AtModelCheck) Release (Worker WorkerDone) false
| worker_call :
    gstep true (Worker AtModelCheck) Keep (Worker InTranscribe) true
| worker_transcribed m :
    gstep m (Worker InTranscribe) Keep (Worker AtSend) m
| worker_transcribe_error m :
    gstep m (Worker InTranscribe) Release (Worker WorkerDone) m
| worker_sent m :
    gstep m (Worker AtSend) Release (Worker WorkerDone) m
| close_lock m :
    gstep m (Closer CallAtLock) Acquire (Closer InBody) m
| close_return m :
    gstep m (Closer InBody) Release (Closer CallDone) false
| init_lock m :
    gstep m (Initializer CallAtLock) Acquire (Initializer InBody) m
| init_return m :
    gstep m (Initializer InBody) Release (Initializer CallDone) m.

Record system := mkSystem {
  mu : option nat;               (* the goroutine that holds s.mu *)
  loaded : bool;                 (* s.model != nil *)
  goroutines : list goroutine
}.

Definition initial : system := mkSystem None true [].

Inductive step : system -> system -> Prop :=
| step_go st g :
    starting g = true ->
    step st (mkSystem (mu st) (loaded st) (goroutines st ++ [g]))
| step_goroutine st i g a g' m' :
    goroutines st !! i = Some g ->
    gstep (loaded st) g a g' m' ->
    (a = Acquire -> mu st = None) ->
    step st (mkSystem (match a with
                       | Acquire => Some i
                       | Keep => mu st
                       | Release => None
                       end)
                      m' (<[i := g']> (goroutines st))).

Definition reachable (st : system) : Prop := rtc step initial st.

End Workers.

(* ===================================================================== *)
(** * pkg/tts: [ExtractVerbalResponse] *)
(* ===================================================================== *)

Module TTS.

Export GoStrings.

Definition openTag : gostring := lit "[[VERBAL]]".
Definition closeTag : gostring := lit "[[/VERBAL]]".

(** The submatch of [re.FindStringSubmatch(text)] for
    [(?s)\[\[VERBAL\]\](.*?)\[\[/VERBAL\]\]]: the match starts at the first
    opening tag (if that one is followed by no closing tag, no later one
    is), and the lazy [.*?] stops at the first closing tag after it. *)
Definition findVerbal (text : gostring) : option gostring :=
  match Cut text openTag with
  | None => None
  | Some (_, rest) =>
      match Cut rest closeTag with
      | None => None
      | Some (content, _) => Some content
      end
  end.

(** The character class [[.!?]]. *)
Definition isPunct (c : ascii) : bool :=
  ((code c =? 46) || (code c =? 33) || (code c =? 63))%N.

(** The class [\s] of Go's regexp: tab, newline, form feed, carriage
    return, space. *)
Definition reSpace (c : ascii) : bool :=
  ((code c =? 9) || (code c =? 10) || (code c =? 12) || (code c =? 13)
   || (code c =? 32))%N.

Fixpoint skipWhile (f : ascii -> bool) (s : gostring) : gostring :=
  match s with
  | [] => []
  | c :: s' => if f c then skipWhile f s' else s
  end.

(** A match of [[.!?]+\s+] at the head of [s]: what follows it. Both
    repetitions are greedy, and a shorter run of [[.!?]] is never followed
    by [\s], so the match is the whole run of each. *)
Definition matchTerminator (s : gostring) : option gostring :=
  match s with
  | [] => None
  | c :: _ =>
      if isPunct c
      then match skipWhile isPunct s with
           | [] => None
           | w :: _ as r => if reSpace w then Some (skipWhile reSpace r) else None
           end
      else None
  end.

(** The leftmost match of [[.!?]+\s+] in [s]: the text before and after. *)
Fixpoint findTerminator (s : gostring) : option (gostring * gostring) :=
  match matchTerminator s with
  | Some after => Some ([], after)
  | None =>
      match s with
      | [] => None
      | c :: s' =>
          match findTerminator s' with
          | Some (before, after) => Some (c :: before, after)
          | None => None
          end
      end
  end.

(** [regexp.MustCompile(`[.!?]+\s+`).Split(s, n)] for [n >= 0]. *)
Fixpoint regexpSplit (n : nat) (s : gostring) : list gostring :=
  match n with
  | 0 => []
  | 1 => [s]
  | S n' =>
      match findTerminator s with
      | Some (before, after) => before :: regexpSplit n' after
      | None => [s]
      end
  end.

Definition newline : ascii := ascii_of_N 10.

Definition ExtractVerbalResponse (text : gostring) : gostring :=
  match findVerbal text with
  | Some content => TrimSpace content
  | None =>
      let paragraphs := Split text [newline; newline] in
      let firstParagraph := hd [] paragraphs in
      if length firstParagraph <? 1000 then TrimSpace firstParagraph
      else
        let sentences := regexpSplit 6 firstParagraph in
        if 0 <? length sentences
        then
          let count := if length sentences <? 5 then length sentences else 5 in
          TrimSpace (Join (take count sentences) (lit ". "))
        else text
  end.

(** ** handler.go *)

Record TTSRequest := mkTTSRequest {
  Text : gostring;
  ExtractVerbal : bool
}.

(** An HTTP answer of [SynthesizeHandler]. *)
Inductive ttsResponse :=
| MethodNotAllowed              (* 405 *)
| ServiceUnavailable            (* 503 "TTS service not initialized" *)
| InvalidRequest                (* 400 "Invalid request" *)
| TextRequired                  (* 400 "Text is required" *)
| SynthesisFailed               (* 500 *)
| Audio (audioData : gostring). (* 200, audio/pcm *)

Section Synthesis.

(** [service.Synthesize(ctx, text)] under the 30 s timeout: the bytes piper
    wrote, or [None] for an error. *)
Variable Synthesize : gostring -> option gostring.

(** The variable [textToSpeak] of the handler. *)
Definition textToSpeak (req : TTSRequest) : gostring :=
  if ExtractVerbal req then ExtractVerbalResponse (Text req) else Text req.

(** [SynthesizeHandler]: [initialized] says that [GetTTSService()] is not
    nil, [decoded] is the request body decoded, [None] for a malformed
    one. *)
Definition SynthesizeHandler (initialized : bool) (method : gostring)
    (decoded : option TTSRequest) : ttsResponse :=
  if negb (bool_decide (method = lit "POST")) then MethodNotAllowed
  else if negb initialized then ServiceUnavailable
  else
    match decoded with
    | None => InvalidRequest
    | Some req =>
        if bool_decide (Text req = []) then TextRequired
        else
          match Synthesize (textToSpeak req) with
          | None => SynthesisFailed
          | Some audioData => Audio audioData
          end
    end.

End Synthesis.

End TTS.

(* ===================================================================== *)
(** * The vocabulary of the properties *)
(* ===================================================================== *)

Import Whisper.

(** The three phrases [transcribeAudio] looks for. *)
Definition triggerPhrases : list gostring :=
  [lit "initiate alfred protocol"; lit "hi alfred"; lit "hey alfred"].

(** The samples the loop has taken from the queue: those of every chunk
    received before the context was done. *)
Fixpoint consumed (cs : list selectCase) : list float32 :=
  match cs with
  | [] => []
  | CtxDone :: _ => []
  | RecvAudio data :: cs' => data ++ consumed cs'
  | TimeAfter :: cs' => consumed cs'
  end.

(** Once the results channel is closed the model is gone: only [Close]
    closes the channel, and it releases the model in the same call. *)
Definition closed_without_model (s : WhisperService) : Prop :=
  chan_closed (results s) = true -> model s = None.

(** The two channels are closed together. *)
Definition closed_together (s : WhisperService) : Prop :=
  chan_closed (audioQueue s) = chan_closed (results s).

(** A result as a worker makes it. *)
Definition final_result (r : TranscriptionResult) : Prop :=
  IsFinal r = true /\ Confidence r = zeroFloat64.

(** Two services agree on everything but the registry and the sockets. *)
Definition same_core (s s' : WhisperService) : Prop :=
  config s' = config s /\ model s' = model s /\ audioQueue s' = audioQueue s /\
  results s' = results s /\ cancelFunc s' = cancelFunc s /\
  running s' = running s /\ contexts s' = contexts s.

(** [conn.WriteJSON] returns an error. *)
Definition write_fails (c : Conn) : bool := conn_closed c || conn_broken c.

(** The connection after the loop body of [BroadcastResult] has run on it. *)
Definition after_delivery (r : TranscriptionResult) (c : Conn) : Conn :=
  if write_fails c then Conn_Close c
  else mkConn (conn_closed c) (conn_broken c) (conn_written c ++ [MsgResult r]).

(** Whoever is between [Lock] and [Unlock] is the holder of the mutex. *)
Definition lock_inv (st : Workers.system) : Prop :=
  forall i g, Workers.goroutines st !! i = Some g -> Workers.holds g = true ->
    Workers.mu st = Some i.

(** A worker that is past the nil check works on a model that no [Close]
    has released. *)
Definition past_check_loaded (st : Workers.system) : Prop :=
  forall i p, Workers.goroutines st !! i = Some (Workers.Worker p) ->
    p = Workers.InTranscribe \/ p = Workers.AtSend -> Workers.loaded st = true.

(** While the model is loaded no [Close] has returned. *)
Definition no_Close_done (st : Workers.system) : Prop :=
  Workers.loaded st = true ->
  forall j p, Workers.goroutines st !! j = Some (Workers.Closer p) ->
    p <> Workers.CallDone.

(** The text holds an opening tag with a closing tag somewhere after it. *)
Definition has_tag_pair (text : gostring) : Prop :=
  exists pre content post, text = pre ++ TTS.openTag ++ content ++ TTS.closeTag ++ post.

(** A match of [[.!?]+\s+]: a non-empty run of sentence punctuation and a
    non-empty run of white space. *)
Definition isTerminator (t : gostring) : Prop :=
  exists p w, t = p ++ w /\ p <> [] /\ w <> [] /\
    Forall (fun c => TTS.isPunct c = true) p /\ Forall (fun c => TTS.reSpace c = true) w.

(** Pieces with a terminator between each two of them. *)
Fixpoint weave (pieces seps : list gostring) : gostring :=
  match pieces, seps with
  | [], _ => []
  | p :: _, [] => p
  | p :: pieces', t :: seps' => p ++ t ++ weave pieces' seps'
  end.

(** The UTF-8 encoding of one white-space rune ([unicode.IsSpace]): one,
    two or three bytes. *)
Definition space_rune (u : gostring) : Prop :=
  match u with
  | [a] => asciiSpace a = true
  | [a; b] => space2 a b = true
  | [a; b; c] => space3 a b c = true
  | _ => False
  end.

(** White space only. *)
Definition blank (l : gostring) : Prop :=
  exists runes, Forall space_rune runes /\ l = concat runes.

(** [t] is [s] without the white space at its two ends. *)
Definition trimmed (s t : gostring) : Prop :=
  exists l r, s = l ++ t ++ r /\ blank l /\ blank r /\
    (forall u rest, space_rune u -> t <> u ++ rest) /\
    (forall u rest, space_rune u -> t <> rest ++ u).

(** The first paragraph: the text before the first two line feeds in a
    row, or all of the text when it has none. *)
Definition first_paragraph (text paragraph : gostring) : Prop :=
  (exists rest,
     text = paragraph ++ [TTS.newline; TTS.newline] ++ rest /\
     forall paragraph' rest',
       text = paragraph' ++ [TTS.newline; TTS.newline] ++ rest' ->
       length paragraph <= length paragraph')
  \/ (paragraph = text /\
      ~ exists before after, text = before ++ [TTS.newline; TTS.newline] ++ after).

(** No sentence ends inside [s]. *)
Definition no_terminator (s : gostring) : Prop :=
  ~ exists before t after, isTerminator t /\ s = before ++ t ++ after.

(** [t] is the first terminator in [s], taken with all the white space
    that follows it. *)
Definition first_terminator (s before t after : gostring) : Prop :=
  s = before ++ t ++ after /\ isTerminator t /\
  (forall before' t' after', isTerminator t' -> s = before' ++ t' ++ after' ->
     length before <= length before') /\
  (forall c rest, after = c :: rest -> TTS.reSpace c = false).

(** [s] cut at its sentence ends into at most [n] pieces, the terminators
    left out; the last of [n] pieces is the rest of [s], uncut. *)
Inductive sentence_split : nat -> gostring -> list gostring -> Prop :=
| split_last s : sentence_split 1 s [s]
| split_whole n s : no_terminator s -> sentence_split (S (S n)) s [s]
| split_next n s before t after pieces :
    first_terminator s before t after ->
    sentence_split (S n) after pieces ->
    sentence_split (S (S n)) s (before :: pieces).

(** The pieces with a full stop and a space between each two. *)
Definition with_full_stops (pieces : list gostring) : gostring :=
  match pieces with
  | [] => []
  | p :: rest => p ++ concat (map (fun q => lit ". " ++ q) rest)
  end.

(** A channel within its capacity [cap]. *)
Definition chan_ok {A} (cap : nat) (c : chan A) : Prop :=
  length (chan_buf c) <= chan_cap c /\ chan_cap c = cap.

(** Both channels of the service within the capacities they were made with. *)
Definition queues_ok (s : WhisperService) : Prop :=
  chan_ok 1000 (audioQueue s) /\ chan_ok 100 (results s).

(** The context [cancelFunc] cancels is the only one that can be live, and
    one is live exactly while the service is running. *)
Definition live_context (s : WhisperService) : Prop :=
  (forall i, contexts s !! i = Some false -> cancelFunc s = Some i /\ running s = true) /\
  (running s = true -> exists i, cancelFunc s = Some i /\ contexts s !! i = Some false).

(** Two services agree on the lifecycle fields. *)
Definition same_lifecycle (s s' : WhisperService) : Prop :=
  running s' = running s /\ cancelFunc s' = cancelFunc s /\ contexts s' = contexts s.

(** A frame that is no partial result: the config message, or a result
    with [IsFinal] set. *)
Definition final_frame (m : wsMessage) : Prop :=
  match m with
  | MsgConfig _ => True
  | MsgResult r => IsFinal r = true
  end.

(** No connection has been sent a partial result. *)
Definition frames_final (socks : gmap nat Conn) : Prop :=
  forall conn, Forall final_frame (conn_written (socks !!! conn)).

(** A step the program itself takes: [BroadcastResult] has one caller,
    [broadcastResults], which is the step [StepBroadcastRecv]. *)
Definition own_step (st : step) : Prop :=
  forall result, st <> StepCall (CallBroadcastResult result).

(** What is queued is final, and so is what has been sent as long as the
    results channel is open. *)
Definition final_while_open (s : WhisperService) : Prop :=
  Forall final_result (chan_buf (results s)) /\
  (chan_closed (results s) = false -> frames_final (sockets s)).

(** [InitWhisperService] called with one configuration after another:
    what the package variable holds in the end. *)
Definition init_all (loadModel : Config -> option initError) (socks : gmap nat Conn)
    (whisperService : option WhisperService) (cfgs : list (option Config))
    : option WhisperService :=
  foldl (fun g cfg => fst (InitWhisperService loadModel g socks cfg)) whisperService cfgs.

(* ===================================================================== *)
(** * Properties *)
(* ===================================================================== *)

Section Accumulator.

Lemma processAudio_from_snoc cfg l cs c :
  processAudio_from cfg l (cs ++ [c]) = loop_step cfg (processAudio_from cfg l cs) c.
Proof. unfold processAudio_from. by rewrite foldl_app. Qed.

Lemma processAudio_snoc cfg cs c :
  processAudio cfg (cs ++ [c]) = loop_step cfg (processAudio cfg cs) c.
Proof. apply processAudio_from_snoc. Qed.

Lemma processAudio_app cfg cs cs' :
  processAudio cfg (cs ++ cs') = processAudio_from cfg (processAudio cfg cs) cs'.
Proof. unfold processAudio, processAudio_from. by rewrite foldl_app. Qed.

(** A timeout on a window below the minimum changes nothing, however often
    it fires. *)
Lemma idle_below_minimum cfg l n :
  exited l = false ->
  (GoInt.len (audioBuffer l) < minBufferSize cfg)%Z ->
  processAudio_from cfg l (repeat TimeAfter n) = l.
Proof.
  intros Hrun Hlt. induction n as [|n IH]; [done|].
  cbn [repeat]. unfold processAudio_from in *. cbn [foldl].
  assert (loop_step cfg l TimeAfter = l) as ->; [|exact IH].
  unfold loop_step, processAudio_body. rewrite Hrun.
  destruct (Z.leb_spec (minBufferSize cfg) (GoInt.len (audioBuffer l))); [lia|].
  rewrite app_nil_r. destruct l; cbn in *; by subst.
Qed.

(** The thresholds of the default configuration: 3 s and 0.5 s at 16 kHz. *)
Example DefaultConfig_thresholds :
  bufferSize DefaultConfig = 48000%Z /\ minBufferSize DefaultConfig = 8000%Z.
Proof. by vm_compute. Qed.

(** For a sample rate whose triple fits an [int] the threshold is the
    product itself. *)
Lemma bufferSize_exact cfg :
  (- 2 ^ 63 <= SampleRate cfg * 3 < 2 ^ 63)%Z -> bufferSize cfg = (SampleRate cfg * 3)%Z.
Proof.
  intros H. unfold bufferSize, GoInt.mul, GoInt.wrap64.
  rewrite Z.mod_small; lia.
Qed.

(** The minimum is positive exactly for the sample rates from 2 up. *)
Lemma minBufferSize_pos cfg :
  (- 2 ^ 63 <= SampleRate cfg < 2 ^ 63)%Z ->
  (0 < minBufferSize cfg)%Z <-> (2 <= SampleRate cfg)%Z.
Proof.
  intros Hrange. unfold minBufferSize, GoInt.div, GoInt.wrap64.
  pose proof (Z.quot_rem' (SampleRate cfg) 2) as Hqr.
  pose proof (Z.rem_bound_pos_pos (SampleRate cfg) 2) as Hpos.
  pose proof (Z.rem_bound_pos_neg (SampleRate cfg) 2) as Hneg.
  rewrite Z.mod_small by lia. lia.
Qed.

Lemma processAudio_from_exited cfg l cs :
  exited l = true -> processAudio_from cfg l cs = l.
Proof.
  intros He. induction cs as [|c cs IH]; [done|].
  unfold processAudio_from in *. cbn [foldl].
  assert (loop_step cfg l c = l) as ->; [|done].
  unfold loop_step. by rewrite He.
Qed.

Lemma processAudio_from_conserves cfg cs : forall l,
  exited l = false ->
  concat (dispatched (processAudio_from cfg l cs)) ++ audioBuffer (processAudio_from cfg l cs)
  = concat (dispatched l) ++ audioBuffer l ++ consumed cs.
Proof.
  induction cs as [|c cs IH]; intros l Hrun.
  - cbn. by rewrite app_nil_r.
  - unfold processAudio_from in *. cbn [foldl consumed].
    assert (loop_step cfg l c =
            match processAudio_body cfg (audioBuffer l) c with
            | Return => mkLoop true (audioBuffer l) (dispatched l)
            | Continue b ws => mkLoop false b (dispatched l ++ ws)
            end) as -> by (unfold loop_step; by rewrite Hrun).
    destruct c as [|data|]; cbn [processAudio_body].
    + change (foldl (loop_step cfg) ?x cs) with (processAudio_from cfg x cs).
      rewrite processAudio_from_exited by done. cbn. by rewrite app_nil_r.
    + destruct (_ <=? _)%Z; rewrite IH by done; cbn [dispatched audioBuffer].
      * rewrite concat_app. cbn. by rewrite !app_nil_r, <- !app_assoc.
      * by rewrite app_nil_r, <- !app_assoc.
    + destruct (_ <=? _)%Z; rewrite IH by done; cbn [dispatched audioBuffer].
      * rewrite concat_app. cbn. by rewrite !app_nil_r, <- !app_assoc.
      * by rewrite app_nil_r.
Qed.

(** No sample is lost, repeated or reordered: the dispatched windows, in
    order, followed by the open window are the samples consumed. *)
Theorem processAudio_conserves (cfg : Config) (cs : list selectCase) :
  concat (dispatched (processAudio cfg cs)) ++ audioBuffer (processAudio cfg cs)
  = consumed cs.
Proof. unfold processAudio. by rewrite processAudio_from_conserves. Qed.

(** C1. Whatever the loop has consumed so far ([cs]: chunks and timeouts in
    any order), when appending the next chunk brings the open window to the
    flush threshold [bufferSize] (SampleRate * 3), that iteration dispatches
    exactly one worker, on the whole window, and leaves the window empty;
    when the window stays under the threshold the iteration dispatches
    nothing and keeps the window. *)
Theorem processAudio_threshold_flush (cfg : Config) (cs : list selectCase)
    (data : list float32) :
  let before := processAudio cfg cs in
  let after := processAudio cfg (cs ++ [RecvAudio data]) in
  let window := audioBuffer before ++ data in
  exited before = false ->
  ((bufferSize cfg <= GoInt.len window)%Z ->
     dispatched after = dispatched before ++ [window] /\
     audioBuffer after = [] /\ exited after = false) /\
  ((GoInt.len window < bufferSize cfg)%Z ->
     dispatched after = dispatched before /\
     audioBuffer after = window /\ exited after = false).
Proof.
  intros before after window Hrun. subst after.
  rewrite processAudio_snoc. fold before.
  unfold loop_step, processAudio_body. rewrite Hrun. fold window.
  destruct (Z.leb_spec (bufferSize cfg) (GoInt.len window)); cbn.
  - split; [done | lia].
  - split; [lia | intros _]. by rewrite app_nil_r.
Qed.

(** The scenario of the specification: 48000 samples at 16 kHz in one chunk
    give one flush of the whole chunk. *)
Lemma processAudio_threshold_flush_witness :
  let l := processAudio DefaultConfig [RecvAudio (repeat 0%Z (Z.to_nat 48000))] in
  dispatched l = [repeat 0%Z (Z.to_nat 48000)] /\ audioBuffer l = [] /\ exited l = false.
Proof.
  apply (proj1 (processAudio_threshold_flush DefaultConfig [] (repeat 0%Z (Z.to_nat 48000))
                  eq_refl)).
  vm_compute. discriminate.
Defined.

(** C2, as amended. When the timeout case fires, a worker is dispatched if
    and only if the open window holds at least [minBufferSize]
    (SampleRate / 2) samples, and the window is empty afterwards. When that
    minimum is positive, an idle period of any number of consecutive
    timeouts dispatches at most one worker: one, on the window the period
    started with, if that window had reached the minimum, and none
    otherwise. *)
Theorem processAudio_idle_flush (cfg : Config) (cs : list selectCase) :
  let before := processAudio cfg cs in
  let window := audioBuffer before in
  exited before = false ->
  (let after := processAudio cfg (cs ++ [TimeAfter]) in
   ((minBufferSize cfg <= GoInt.len window)%Z ->
      dispatched after = dispatched before ++ [window] /\ audioBuffer after = []) /\
   ((GoInt.len window < minBufferSize cfg)%Z ->
      dispatched after = dispatched before /\ audioBuffer after = window)) /\
  ((0 < minBufferSize cfg)%Z ->
   forall n : nat,
     let after := processAudio cfg (cs ++ repeat TimeAfter (S n)) in
     ((minBufferSize cfg <= GoInt.len window)%Z ->
        dispatched after = dispatched before ++ [window] /\ audioBuffer after = []) /\
     ((GoInt.len window < minBufferSize cfg)%Z ->
        dispatched after = dispatched before /\ audioBuffer after = window)).
Proof.
  intros before window Hrun.
  assert (Hone : forall l, exited l = false ->
            (minBufferSize cfg <= GoInt.len (audioBuffer l))%Z ->
            loop_step cfg l TimeAfter = mkLoop false [] (dispatched l ++ [audioBuffer l])).
  { intros l Hl Hle. unfold loop_step, processAudio_body. rewrite Hl.
    destruct (Z.leb_spec (minBufferSize cfg) (GoInt.len (audioBuffer l))); [done | lia]. }
  split.
  - intros after. subst after. rewrite processAudio_snoc. fold before. split.
    + intros Hle. by rewrite Hone.
    + intros Hlt.
      pose proof (idle_below_minimum cfg before 1 Hrun Hlt) as H1.
      cbn in H1. by rewrite H1.
  - intros Hpos n after. subst after. rewrite processAudio_app. fold before. split.
    + intros Hle. cbn [repeat]. unfold processAudio_from. cbn [foldl].
      rewrite (Hone before Hrun Hle).
      change (foldl (loop_step cfg) ?l ?c) with (processAudio_from cfg l c).
      rewrite idle_below_minimum; [done | done |].
      cbn [audioBuffer]. unfold GoInt.len. cbn [length]. lia.
    + intros Hlt. by rewrite idle_below_minimum.
Qed.

Lemma processAudio_idle_flush_witness :
  let cs := [RecvAudio (repeat 0%Z (Z.to_nat 8000))] in
  let after := processAudio DefaultConfig (cs ++ repeat TimeAfter 3) in
  dispatched after = [repeat 0%Z (Z.to_nat 8000)] /\ audioBuffer after = [].
Proof.
  apply (proj2 (processAudio_idle_flush DefaultConfig [RecvAudio (repeat 0%Z (Z.to_nat 8000))]
                  eq_refl)).
  - vm_compute. reflexivity.
  - vm_compute. discriminate.
Defined.

(** C2 as stated fails for a configuration whose [SampleRate / 2] is 0: the
    empty post-flush window is not below the minimum, and every further
    timeout of the same idle period dispatches another worker. *)
Lemma processAudio_idle_flush_counterexample :
  let cfg := mkConfig [] 4 30 0 [] true 0%Z [] in
  minBufferSize cfg = 0%Z /\
  dispatched (processAudio cfg [RecvAudio [1%Z]; TimeAfter; TimeAfter; TimeAfter])
  = [[1%Z]; []; []; []].
Proof. vm_compute. done. Qed.

End Accumulator.

(* --------------------------------------------------------------------- *)
(** ** Substrings *)
(* --------------------------------------------------------------------- *)

Section Substrings.

Lemma HasPrefix_spec (s prefix : gostring) :
  HasPrefix s prefix = true <-> exists post, s = prefix ++ post.
Proof.
  revert s. induction prefix as [|p prefix IH]; intros s.
  - split; [intros _; by exists s | by destruct s].
  - destruct s as [|c s]; cbn.
    + split; [done | intros [post H]; discriminate].
    + rewrite andb_true_iff, IH. split.
      * intros [Hc [post ->]]. apply Ascii.eqb_eq in Hc as ->. by exists post.
      * intros [post [= -> ->]]. split; [apply Ascii.eqb_refl | by exists post].
Qed.

Lemma HasPrefix_app (prefix post : gostring) : HasPrefix (prefix ++ post) prefix = true.
Proof. apply HasPrefix_spec. by exists post. Qed.

(** [strings.Contains] decides the substring relation. *)
Lemma Contains_spec (s substr : gostring) :
  Contains s substr = true <-> exists pre post, s = pre ++ substr ++ post.
Proof.
  induction s as [|c s IH]; cbn [Contains]; rewrite orb_true_iff.
  - rewrite HasPrefix_spec. split.
    + intros [[post H] | H]; [by exists [], post | done].
    + intros (pre & post & H). left.
      destruct pre; [by exists post | discriminate].
  - rewrite HasPrefix_spec, IH. split.
    + intros [[post H] | (pre & post & ->)]; [by exists [], post |].
      by exists (c :: pre), post.
    + intros (pre & post & H). destruct pre as [|c' pre]; cbn in H.
      * left. by exists post.
      * right. injection H as -> ->. by exists pre, post.
Qed.

End Substrings.

(** [TrimSpace] takes off Unicode white space as well: here a no-break space
    (C2 A0) in front and an em space (E2 80 83) and a newline behind. *)
Example TrimSpace_unicode :
  TrimSpace ([ascii_of_N 0xC2; ascii_of_N 0xA0] ++ lit " hi there"
             ++ [ascii_of_N 0xE2; ascii_of_N 0x80; ascii_of_N 0x83; ascii_of_N 10])
  = lit "hi there".
Proof. by vm_compute. Qed.

(* --------------------------------------------------------------------- *)
(** ** The ingestion queue *)
(* --------------------------------------------------------------------- *)

Section Ingestion.

(** C4, as amended. [ProcessAudio] never waits. On a service that is not
    running it returns the error "service not running" and changes
    nothing. On a running service whose queue has not been closed: with
    the queue at its capacity it returns the error "audio queue full" and
    changes nothing, so the chunk is dropped; otherwise it returns nil and
    the chunk is the newest element of the queue, whose capacity is
    unchanged. *)
Theorem ProcessAudio_cases (s : WhisperService) (audioData : list float32) :
  snd (ProcessAudio s audioData) <> Blocks /\
  (running s = false ->
     ProcessAudio s audioData = (s, Returns (Some ErrServiceNotRunning))) /\
  (running s = true -> chan_closed (audioQueue s) = false ->
     chan_cap (audioQueue s) <= length (chan_buf (audioQueue s)) ->
     ProcessAudio s audioData = (s, Returns (Some ErrAudioQueueFull))) /\
  (running s = true -> chan_closed (audioQueue s) = false ->
     length (chan_buf (audioQueue s)) < chan_cap (audioQueue s) ->
     exists s', ProcessAudio s audioData = (s', Returns None) /\
       chan_buf (audioQueue s') = chan_buf (audioQueue s) ++ [audioData] /\
       chan_cap (audioQueue s') = chan_cap (audioQueue s) /\
       s' = set_audioQueue (audioQueue s') s).
Proof.
  unfold ProcessAudio, chan_has_room.
  destruct (running s), (chan_closed (audioQueue s)); cbn [negb];
    destruct (Nat.ltb_spec (length (chan_buf (audioQueue s))) (chan_cap (audioQueue s)));
    (split; [done|]); (split; [ intros; congruence |]);
    (split; [ intros; first [congruence | lia] |]);
    intros; try congruence; try lia.
  eexists; repeat split.
Qed.

(** A fresh service takes a chunk once initialized, refuses it before, and
    refuses chunk 1001 while nothing drains the queue. *)
Lemma ProcessAudio_cases_witness :
  let s0 := NewWhisperService None ∅ in
  let s := Initialize s0 in
  ProcessAudio s0 [1%Z] = (s0, Returns (Some ErrServiceNotRunning)) /\
  (exists s', ProcessAudio s [1%Z] = (s', Returns None) /\
     chan_buf (audioQueue s') = chan_buf (audioQueue s) ++ [[1%Z]] /\
     chan_cap (audioQueue s') = chan_cap (audioQueue s) /\
     s' = set_audioQueue (audioQueue s') s) /\
  (let full := set_audioQueue (mkChan (repeat [] 1000) 1000 false) s in
   ProcessAudio full [1%Z] = (full, Returns (Some ErrAudioQueueFull))).
Proof.
  intros s0 s. split; [|split].
  - apply (proj1 (proj2 (ProcessAudio_cases s0 [1%Z]))). reflexivity.
  - apply (proj2 (proj2 (proj2 (ProcessAudio_cases s [1%Z])))); vm_compute; [done | done | lia].
  - intros full.
    apply (proj1 (proj2 (proj2 (ProcessAudio_cases full [1%Z])))); vm_compute; [done | done | lia].
Defined.

(** C4 as stated fails on a service that was closed and initialized again:
    it is running, its queue is empty, and the send panics on the closed
    channel. *)
Lemma ProcessAudio_cases_counterexample :
  let s := Initialize (fst (Close (Initialize (NewWhisperService None ∅)))) in
  running s = true /\
  chan_buf (audioQueue s) = [] /\ chan_cap (audioQueue s) = 1000 /\
  ProcessAudio s [1%Z] = (s, Panics SendOnClosedChannel).
Proof. vm_compute. done. Qed.

End Ingestion.

(* --------------------------------------------------------------------- *)
(** ** The transcription worker *)
(* --------------------------------------------------------------------- *)

Section Worker.

Variable mapToLower : gostring -> gostring.
Variable whisper : list float32 -> whisperRun.

Lemma isWakeWord_spec (text : gostring) :
  isWakeWord mapToLower text = true <->
  exists phrase pre post,
    phrase ∈ triggerPhrases /\ lowerText mapToLower text = pre ++ phrase ++ post.
Proof.
  unfold isWakeWord, triggerPhrases.
  rewrite !orb_true_iff, !Contains_spec. split.
  - intros [[(pre & post & H) | (pre & post & H)] | (pre & post & H)];
      eexists _, pre, post; (split; [|exact H]); set_solver.
  - intros (phrase & pre & post & Hin & H).
    rewrite !elem_of_cons, elem_of_nil in Hin.
    destruct Hin as [-> | [-> | [-> | []]]]; eauto.
Qed.

(** What a worker that emits has done. *)
Lemma transcribeAudio_emitted (s s' : WhisperService) (audioData : list float32)
    (r : TranscriptionResult) :
  transcribeAudio mapToLower whisper s audioData = (s', Returns (Emitted r)) ->
  exists m text,
    model s = Some m /\
    Model_Transcribe whisper m audioData = inl text /\
    r = mkResult text true (isWakeWord mapToLower text) zeroFloat64 /\
    chan_closed (results s) = false /\
    s' = set_results (chan_push (results s) r) s.
Proof.
  unfold transcribeAudio. intros H.
  destruct (model s) as [m|] eqn:Hm; [|discriminate].
  destruct (Model_Transcribe whisper m audioData) as [text|e] eqn:Ht; [|discriminate].
  destruct (chan_closed (results s)) eqn:Hc; [discriminate|].
  destruct (chan_has_room (results s)); [|discriminate].
  injection H as <- <-. by exists m, text.
Qed.

End Worker.

(** C3, as amended. For the text of a successful engine invocation, the
    worker trims the text, lowercases it, and sets [IsWakeWord] to true if
    and only if the outcome contains one of the three phrases written in
    [transcribeAudio] ("initiate alfred protocol", "hi alfred",
    "hey alfred") as a substring; the emitted [Text] is the engine's text
    unchanged. "Hey Alfred, what's up" gives true, "hello friend" false.
    [Config.WakeWord] plays no part. *)
Theorem transcribeAudio_wake_word (mapToLower : gostring -> gostring)
    (whisper : list float32 -> whisperRun) :
  (forall (s s' : WhisperService) (audioData : list float32) (r : TranscriptionResult),
     transcribeAudio mapToLower whisper s audioData = (s', Returns (Emitted r)) ->
     exists m text,
       model s = Some m /\
       Model_Transcribe whisper m audioData = inl text /\
       Text r = text /\
       (IsWakeWord r = true <->
        exists phrase pre post,
          phrase ∈ triggerPhrases /\
          ToLower mapToLower (TrimSpace text) = pre ++ phrase ++ post)) /\
  isWakeWord mapToLower (lit "Hey Alfred, what's up") = true /\
  isWakeWord mapToLower (lit "hello friend") = false.
Proof.
  split; [|by vm_compute].
  intros s s' audioData r H.
  apply transcribeAudio_emitted in H as (m & text & Hm & Ht & -> & _ & _).
  exists m, text. repeat split; try done; cbn [IsWakeWord];
    apply (isWakeWord_spec mapToLower text).
Qed.

(** The engine hears "Hey Alfred, what's up" in one segment. *)
Lemma transcribeAudio_wake_word_witness :
  let whisper := fun _ : list float32 => Segments [lit "Hey Alfred, what's up"] in
  let s := Initialize (NewWhisperService None ∅) in
  let r := mkResult (lit "Hey Alfred, what's up ") true true zeroFloat64 in
  exists m text,
    model s = Some m /\
    Model_Transcribe whisper m [] = inl text /\
    Text r = text /\
    (IsWakeWord r = true <->
     exists phrase pre post,
       phrase ∈ triggerPhrases /\
       ToLower id (TrimSpace text) = pre ++ phrase ++ post).
Proof.
  intros whisper s r.
  apply (proj1 (transcribeAudio_wake_word id whisper) s
               (set_results (chan_push (results s) r) s) [] r).
  vm_compute. reflexivity.
Defined.

(** C3 as stated fails: the recognized text contains the configured
    [WakeWord] of the service, "alfred", and the result the worker emits
    has [IsWakeWord = false]. *)
Lemma transcribeAudio_wake_word_counterexample :
  let whisper := fun _ : list float32 => Segments [lit "Alfred, lights on"] in
  let s := Initialize (NewWhisperService None ∅) in
  let text := lit "Alfred, lights on " in
  WakeWord (config s) = lit "alfred" /\
  Contains (ToLower id (TrimSpace text)) (WakeWord (config s)) = true /\
  snd (transcribeAudio id whisper s [])
  = Returns (Emitted (mkResult text true false zeroFloat64)).
Proof. vm_compute. done. Qed.

(* --------------------------------------------------------------------- *)
(** ** What a broadcast leaves alone *)
(* --------------------------------------------------------------------- *)

Section Frames.

Lemma same_core_refl s : same_core s s.
Proof. by repeat split. Qed.

Lemma same_core_trans s1 s2 s3 : same_core s1 s2 -> same_core s2 s3 -> same_core s1 s3.
Proof.
  unfold same_core. intros (?&?&?&?&?&?&?) (?&?&?&?&?&?&?).
  repeat split; congruence.
Qed.

Lemma deliver_same_core r s conn : same_core s (deliver r s conn).
Proof.
  unfold deliver. destruct (WriteJSON _ _) as [c []]; by repeat split.
Qed.

Lemma BroadcastResult_in_same_core order s r :
  same_core s (BroadcastResult_in order s r).
Proof.
  revert s. induction order as [|c order IH]; intros s; cbn.
  - apply same_core_refl.
  - eapply same_core_trans; [apply deliver_same_core | apply IH].
Qed.

Lemma BroadcastResult_same_core s r : same_core s (BroadcastResult s r).
Proof. apply BroadcastResult_in_same_core. Qed.

End Frames.

(* --------------------------------------------------------------------- *)
(** ** The lifecycle *)
(* --------------------------------------------------------------------- *)

Section Lifecycle.

Variable mapToLower : gostring -> gostring.
Variable whisper : list float32 -> whisperRun.

Local Abbreviation exec := (exec mapToLower whisper).
Local Abbreviation execs := (execs mapToLower whisper).
Local Abbreviation transcribeAudio := (transcribeAudio mapToLower whisper).

Lemma execs_snoc s cs c : execs s (cs ++ [c]) = exec (execs s cs) c.
Proof. unfold execs, Whisper.execs. by rewrite foldl_app. Qed.

Lemma running_Close s : running (fst (Close s)) = false.
Proof.
  unfold Close. destruct (chan_close (audioQueue s)); [|done].
  by destruct (chan_close (results s)).
Qed.

Lemma running_transcribeAudio s d : running (fst (transcribeAudio s d)) = running s.
Proof.
  unfold Whisper.transcribeAudio. destruct (model s) as [m|]; [|done].
  destruct (Model_Transcribe whisper m d); [|done].
  destruct (chan_closed (results s)); [done|].
  by destruct (chan_has_room (results s)).
Qed.

Lemma running_ProcessAudio s d : running (fst (ProcessAudio s d)) = running s.
Proof.
  unfold ProcessAudio. destruct (running s) eqn:Hr; cbn [negb]; [|done].
  destruct (chan_closed (audioQueue s)); [done|].
  by destruct (chan_has_room (audioQueue s)).
Qed.

(** A worker leaves the model alone and closes no channel. *)
Lemma transcribeAudio_keeps s d :
  model (fst (transcribeAudio s d)) = model s /\
  chan_closed (results (fst (transcribeAudio s d))) = chan_closed (results s).
Proof.
  unfold Whisper.transcribeAudio. destruct (model s) as [m|] eqn:Hm; [|done].
  destruct (Model_Transcribe whisper m d); [|done].
  destruct (chan_closed (results s)) eqn:Hc; [done|].
  by destruct (chan_has_room (results s)).
Qed.

(** Only [Initialize] sets the [running] flag. *)
Lemma exec_not_running s c :
  running s = false -> c <> CallInitialize -> running (exec s c) = false.
Proof.
  intros Hr Hc. destruct c; cbn.
  - done.
  - by rewrite running_ProcessAudio.
  - by rewrite running_transcribeAudio.
  - done.
  - done.
  - destruct (BroadcastResult_same_core s result) as (_&_&_&_&_&->&_). done.
  - apply running_Close.
Qed.

Lemma execs_not_running s cs :
  running s = false -> CallInitialize ∉ cs -> running (execs s cs) = false.
Proof.
  intros Hr. induction cs as [|c cs IH] using rev_ind; [done|].
  intros Hnot. rewrite execs_snoc. apply exec_not_running.
  - apply IH. set_solver.
  - intros ->. set_solver.
Qed.

Lemma exec_closed_without_model s c :
  closed_without_model s -> closed_without_model (exec s c).
Proof.
  unfold closed_without_model. intros Inv. destruct c; cbn.
  - unfold Initialize. by destruct (running s).
  - unfold ProcessAudio. destruct (running s); cbn [negb]; [|done].
    destruct (chan_closed (audioQueue s)); [done|].
    by destruct (chan_has_room (audioQueue s)).
  - by destruct (transcribeAudio_keeps s audioData) as [-> ->].
  - done.
  - done.
  - destruct (BroadcastResult_same_core s result) as (_&->&_&->&_). done.
  - unfold Close, chan_close.
    destruct (chan_closed (audioQueue s)); [done|].
    destruct (chan_closed (results s)) eqn:Hc; cbn; [|done].
    intros _. by apply Inv.
Qed.

Lemma execs_closed_without_model cfg socks cs :
  closed_without_model (execs (NewWhisperService cfg socks) cs).
Proof.
  induction cs as [|c cs IH] using rev_ind; [done|].
  rewrite execs_snoc. by apply exec_closed_without_model.
Qed.

Lemma ProcessAudio_keeps s d :
  results (fst (ProcessAudio s d)) = results s /\
  chan_closed (audioQueue (fst (ProcessAudio s d))) = chan_closed (audioQueue s).
Proof.
  unfold ProcessAudio. destruct (running s); cbn [negb]; [|done].
  destruct (chan_closed (audioQueue s)) eqn:Hc; [done|].
  by destruct (chan_has_room (audioQueue s)).
Qed.

Lemma transcribeAudio_keeps_queue s d :
  audioQueue (fst (transcribeAudio s d)) = audioQueue s.
Proof.
  unfold Whisper.transcribeAudio. destruct (model s) as [m|]; [|done].
  destruct (Model_Transcribe whisper m d); [|done].
  destruct (chan_closed (results s)); [done|].
  by destruct (chan_has_room (results s)).
Qed.

Lemma exec_closed_together s c : closed_together s -> closed_together (exec s c).
Proof.
  unfold closed_together. intros Inv. destruct c; cbn.
  - unfold Initialize. by destruct (running s).
  - by destruct (ProcessAudio_keeps s audioData) as [-> ->].
  - rewrite transcribeAudio_keeps_queue.
    by destruct (transcribeAudio_keeps s audioData) as [_ ->].
  - done.
  - done.
  - destruct (BroadcastResult_same_core s result) as (_&_&->&->&_). done.
  - unfold Close, chan_close.
    destruct (chan_closed (audioQueue s)) eqn:Hc; [cbn; congruence|].
    rewrite <- Inv. done.
Qed.

Lemma exec_stays_closed s c :
  chan_closed (results s) = true -> chan_closed (results (exec s c)) = true.
Proof.
  intros Hc. destruct c; cbn.
  - unfold Initialize. by destruct (running s).
  - by destruct (ProcessAudio_keeps s audioData) as [-> _].
  - by destruct (transcribeAudio_keeps s audioData) as [_ ->].
  - done.
  - done.
  - destruct (BroadcastResult_same_core s result) as (_&_&_&->&_). done.
  - unfold Close, chan_close. rewrite Hc.
    by destruct (chan_closed (audioQueue s)).
Qed.

Lemma Close_closes s :
  closed_together s -> chan_closed (results (fst (Close s))) = true.
Proof.
  unfold closed_together, Close, chan_close. intros Inv.
  destruct (chan_closed (audioQueue s)) eqn:Hc; [cbn; congruence|].
  rewrite <- Inv. done.
Qed.

Lemma execs_closed_together cfg socks cs :
  closed_together (execs (NewWhisperService cfg socks) cs).
Proof.
  induction cs as [|c cs IH] using rev_ind; [done|].
  rewrite execs_snoc. by apply exec_closed_together.
Qed.

(** After a [Close], whatever else was called, the results channel is
    closed. *)
Lemma execs_closed_after_Close cfg socks cs :
  CallClose ∈ cs ->
  chan_closed (results (execs (NewWhisperService cfg socks) cs)) = true.
Proof.
  induction cs as [|c cs IH] using rev_ind; [set_solver|].
  intros Hin. rewrite execs_snoc.
  apply elem_of_app in Hin as [Hin | Hin].
  - by apply exec_stays_closed, IH.
  - apply list_elem_of_singleton in Hin as <-. cbn.
    apply Close_closes, execs_closed_together.
Qed.

Lemma exec_results_final s c :
  Forall final_result (chan_buf (results s)) ->
  Forall final_result (chan_buf (results (exec s c))).
Proof.
  intros Inv. destruct c; cbn.
  - unfold Initialize. by destruct (running s).
  - by destruct (ProcessAudio_keeps s audioData) as [-> _].
  - unfold Whisper.transcribeAudio. destruct (model s) as [m|]; [|done].
    destruct (Model_Transcribe whisper m audioData); [|done].
    destruct (chan_closed (results s)); [done|].
    destruct (chan_has_room (results s)); [|done].
    cbn. apply Forall_app. split; [done|]. by repeat constructor.
  - done.
  - done.
  - destruct (BroadcastResult_same_core s result) as (_&_&_&->&_). done.
  - unfold Close, chan_close.
    destruct (chan_closed (audioQueue s)); [done|].
    by destruct (chan_closed (results s)).
Qed.

Lemma execs_results_final cfg socks cs :
  Forall final_result (chan_buf (results (execs (NewWhisperService cfg socks) cs))).
Proof.
  induction cs as [|c cs IH] using rev_ind; [by constructor|].
  rewrite execs_snoc. by apply exec_results_final.
Qed.

End Lifecycle.

(** C7, as amended. A new service is not running, [Initialize] makes it
    running and [Close] makes it not running. After [Close], no sequence
    of further calls that leaves [Initialize] out returns the service to
    the running state, and [ProcessAudio] on a service that is not running
    fails with "service not running" and changes nothing. *)
Theorem lifecycle_running (mapToLower : gostring -> gostring)
    (whisper : list float32 -> whisperRun) :
  (forall cfg socks, running (NewWhisperService cfg socks) = false) /\
  (forall s, running (Initialize s) = true) /\
  (forall s, running (fst (Close s)) = false) /\
  (forall s cs, CallInitialize ∉ cs ->
     running (execs mapToLower whisper (fst (Close s)) cs) = false) /\
  (forall s audioData, running s = false ->
     ProcessAudio s audioData = (s, Returns (Some ErrServiceNotRunning))).
Proof.
  split; [done|]. split.
  { intros s. unfold Initialize. by destruct (running s) eqn:Hr. }
  split; [apply running_Close|]. split.
  - intros s cs Hcs. apply execs_not_running; [apply running_Close | done].
  - intros s d Hr. unfold ProcessAudio. by rewrite Hr.
Qed.

(** A closed service takes a chunk, a worker, a broadcast and a second
    [Close], and is still not running. *)
Lemma lifecycle_running_witness :
  let whisper := fun _ : list float32 => Segments [lit "hi alfred"] in
  let s := Initialize (NewWhisperService None ∅) in
  running (execs id whisper (fst (Close s))
             [CallProcessAudio [1%Z]; CallTranscribeAudio [1%Z];
              CallBroadcastResult (mkResult [] true false zeroFloat64); CallClose])
  = false.
Proof.
  intros whisper s.
  apply (proj1 (proj2 (proj2 (proj2 (lifecycle_running id whisper))))).
  rewrite !elem_of_cons, elem_of_nil. intros [H | [H | [H | [H | []]]]]; discriminate.
Defined.

(** C7 as stated fails: [Initialize] does not look at what [Close] did, so
    a closed service (channels closed, model released) is running again
    after it. *)
Lemma lifecycle_running_counterexample :
  let closed := fst (Close (Initialize (NewWhisperService None ∅))) in
  let again := execs id (fun _ => ProcessFails) closed [CallInitialize] in
  running closed = false /\
  running again = true /\
  chan_closed (audioQueue again) = true /\ chan_closed (results again) = true /\
  model again = None.
Proof. vm_compute. done. Qed.

(** [Close] is not idempotent: on a service that has been closed, a
    further [Close] panics with "close of closed channel" (and leaves the
    service not running). *)
Theorem Close_twice_panics (mapToLower : gostring -> gostring)
    (whisper : list float32 -> whisperRun) (cfg : option Config)
    (socks : gmap nat Conn) (cs : list call) :
  let s := execs mapToLower whisper (NewWhisperService cfg socks) cs in
  CallClose ∈ cs ->
  snd (Close s) = Panics CloseOfClosedChannel /\ running (fst (Close s)) = false.
Proof.
  intros s Hin. split; [|apply running_Close].
  pose proof (execs_closed_after_Close mapToLower whisper cfg socks cs Hin) as Hc.
  pose proof (execs_closed_together mapToLower whisper cfg socks cs) as Ht.
  fold s in Hc, Ht. unfold closed_together in Ht. rewrite Hc in Ht.
  unfold Close, chan_close. by rewrite Ht.
Qed.

Lemma Close_twice_panics_witness :
  let s := execs id (fun _ => ProcessFails) (NewWhisperService None ∅)
             [CallInitialize; CallClose] in
  snd (Close s) = Panics CloseOfClosedChannel /\ running (fst (Close s)) = false.
Proof.
  apply (Close_twice_panics id (fun _ => ProcessFails) None ∅ [CallInitialize; CallClose]).
  rewrite !elem_of_cons. tauto.
Defined.

(** C8. On a service reached from a new one by any calls, a transcription
    worker never panics. Once [Close] has been called (and so the results
    channel is closed), a worker that runs finds the model released, takes
    the "model not initialized" exit, sends nothing and changes nothing. *)
Theorem late_worker_no_crash (mapToLower : gostring -> gostring)
    (whisper : list float32 -> whisperRun) (cfg : option Config)
    (socks : gmap nat Conn) (cs : list call) (audioData : list float32) :
  let s := execs mapToLower whisper (NewWhisperService cfg socks) cs in
  (forall p, snd (transcribeAudio mapToLower whisper s audioData) <> Panics p) /\
  (chan_closed (results s) = true ->
     transcribeAudio mapToLower whisper s audioData = (s, Returns ModelNotInitialized)) /\
  (CallClose ∈ cs ->
     chan_closed (results s) = true /\
     transcribeAudio mapToLower whisper s audioData = (s, Returns ModelNotInitialized)).
Proof.
  intros s.
  pose proof (execs_closed_without_model mapToLower whisper cfg socks cs) as Inv.
  fold s in Inv. unfold closed_without_model in Inv.
  assert (Hlate : chan_closed (results s) = true ->
            transcribeAudio mapToLower whisper s audioData = (s, Returns ModelNotInitialized)).
  { intros Hc. unfold transcribeAudio. by rewrite (Inv Hc). }
  split; [|split; [exact Hlate|]].
  - intros p. destruct (chan_closed (results s)) eqn:Hc.
    + by rewrite Hlate.
    + unfold transcribeAudio. destruct (model s) as [m|]; [|done].
      destruct (Model_Transcribe whisper m audioData); [|done].
      rewrite Hc. by destruct (chan_has_room (results s)).
  - intros Hin.
    pose proof (execs_closed_after_Close mapToLower whisper cfg socks cs Hin) as Hc.
    fold s in Hc. split; [done | by apply Hlate].
Qed.

(** A window is flushed, the service is closed, then the worker runs. *)
Lemma late_worker_no_crash_witness :
  let whisper := fun _ : list float32 => Segments [lit "hey alfred"] in
  let s := execs id whisper (NewWhisperService None ∅)
             [CallInitialize; CallProcessAudio [1%Z]; CallClose] in
  chan_closed (results s) = true /\
  transcribeAudio id whisper s [1%Z] = (s, Returns ModelNotInitialized).
Proof.
  intros whisper s.
  apply (proj2 (proj2 (late_worker_no_crash id whisper None ∅
           [CallInitialize; CallProcessAudio [1%Z]; CallClose] [1%Z]))).
  set_solver.
Defined.

(* --------------------------------------------------------------------- *)
(** ** The broadcaster *)
(* --------------------------------------------------------------------- *)

Section Broadcast.

Lemma WriteJSON_fails c v : snd (WriteJSON c v) = write_fails c.
Proof. unfold WriteJSON, write_fails. by destruct (conn_closed c || conn_broken c). Qed.

Lemma Conn_Close_closed c : conn_closed c = true -> Conn_Close c = c.
Proof. destruct c; cbn. by intros ->. Qed.

Lemma after_delivery_closed r c : conn_closed c = true -> after_delivery r c = c.
Proof.
  intros Hc. unfold after_delivery, write_fails. rewrite Hc. cbn.
  by apply Conn_Close_closed.
Qed.

Lemma deliver_sockets_eq r s a :
  sockets (deliver r s a) !!! a = after_delivery r (sockets s !!! a).
Proof.
  unfold deliver, after_delivery, WriteJSON, write_fails.
  destruct (conn_closed (sockets s !!! a) || conn_broken (sockets s !!! a));
    cbn; by rewrite lookup_total_insert_eq.
Qed.

Lemma deliver_sockets_ne r s a c :
  c <> a -> sockets (deliver r s a) !!! c = sockets s !!! c.
Proof.
  intros Hne. unfold deliver. destruct (WriteJSON _ _) as [c' []]; cbn;
    by rewrite lookup_total_insert_ne.
Qed.

Lemma deliver_connections_eq r s a :
  connections (deliver r s a) !! a =
  if write_fails (sockets s !!! a) then None else connections s !! a.
Proof.
  unfold deliver, WriteJSON, write_fails.
  destruct (conn_closed (sockets s !!! a) || conn_broken (sockets s !!! a)); cbn;
    [by rewrite lookup_delete_eq | done].
Qed.

Lemma deliver_connections_ne r s a c :
  c <> a -> connections (deliver r s a) !! c = connections s !! c.
Proof.
  intros Hne. unfold deliver. destruct (WriteJSON _ _) as [c' []]; cbn;
    [by rewrite lookup_delete_ne | done].
Qed.

(** A loop over connections that are all different treats each on its own. *)
Lemma BroadcastResult_in_sockets r order :
  NoDup order -> forall s c,
  sockets (BroadcastResult_in order s r) !!! c =
  if decide (c ∈ order) then after_delivery r (sockets s !!! c) else sockets s !!! c.
Proof.
  induction 1 as [|a order Ha Hnd IH]; intros s c; cbn [BroadcastResult_in foldl].
  - rewrite decide_False; [done | by intros ?%elem_of_nil].
  - change (foldl (deliver r) ?x order) with (BroadcastResult_in order x r).
    rewrite IH. destruct (decide (c = a)) as [->|Hne].
    + rewrite (decide_False (P := a ∈ order)) by done.
      rewrite (decide_True (P := a ∈ a :: order)) by by left.
      apply deliver_sockets_eq.
    + rewrite deliver_sockets_ne by done.
      destruct (decide (c ∈ order)).
      * by rewrite (decide_True (P := c ∈ a :: order)) by by right.
      * rewrite (decide_False (P := c ∈ a :: order)); [done|].
        by intros [?|?]%elem_of_cons.
Qed.

Lemma BroadcastResult_in_connections r order :
  NoDup order -> forall s c,
  connections (BroadcastResult_in order s r) !! c =
  if decide (c ∈ order)
  then (if write_fails (sockets s !!! c) then None else connections s !! c)
  else connections s !! c.
Proof.
  induction 1 as [|a order Ha Hnd IH]; intros s c; cbn [BroadcastResult_in foldl].
  - rewrite decide_False; [done | by intros ?%elem_of_nil].
  - change (foldl (deliver r) ?x order) with (BroadcastResult_in order x r).
    rewrite IH. destruct (decide (c = a)) as [->|Hne].
    + rewrite (decide_False (P := a ∈ order)) by done.
      rewrite (decide_True (P := a ∈ a :: order)) by by left.
      apply deliver_connections_eq.
    + rewrite deliver_sockets_ne, deliver_connections_ne by done.
      destruct (decide (c ∈ order)).
      * by rewrite (decide_True (P := c ∈ a :: order)) by by right.
      * rewrite (decide_False (P := c ∈ a :: order)); [done|].
        by intros [?|?]%elem_of_cons.
Qed.

Lemma BroadcastResult_sockets s r c :
  sockets (BroadcastResult s r) !!! c =
  if decide (c ∈ dom (connections s))
  then after_delivery r (sockets s !!! c) else sockets s !!! c.
Proof.
  unfold BroadcastResult. rewrite BroadcastResult_in_sockets by apply NoDup_elements.
  destruct (decide (c ∈ dom (connections s))).
  - by rewrite decide_True by by apply elem_of_elements.
  - by rewrite decide_False by by rewrite elem_of_elements.
Qed.

Lemma BroadcastResult_connections s r c :
  connections (BroadcastResult s r) !! c =
  if write_fails (sockets s !!! c) then None else connections s !! c.
Proof.
  unfold BroadcastResult. rewrite BroadcastResult_in_connections by apply NoDup_elements.
  destruct (decide (c ∈ elements (dom (connections s)))) as [|Hn]; [done|].
  rewrite elem_of_elements, not_elem_of_dom in Hn. rewrite Hn.
  by destruct (write_fails _).
Qed.

(** Nothing is ever written to a closed connection. *)
Lemma Close_sockets_closed (m : gmap nat Conn) (order : list nat) c :
  conn_closed (m !!! c) = true ->
  foldl (fun m conn => <[conn := Conn_Close (m !!! conn)]> m) m order !!! c = m !!! c.
Proof.
  revert m. induction order as [|a order IH]; intros m Hc; cbn [foldl]; [done|].
  assert (<[a := Conn_Close (m !!! a)]> m !!! c = m !!! c) as Hsame.
  { destruct (decide (c = a)) as [->|Hne].
    - rewrite lookup_total_insert_eq. by apply Conn_Close_closed.
    - by rewrite lookup_total_insert_ne. }
  rewrite IH; rewrite Hsame; done.
Qed.

Variable mapToLower : gostring -> gostring.
Variable whisper : list float32 -> whisperRun.

Lemma exec_sockets_closed s call c :
  conn_closed (sockets s !!! c) = true ->
  sockets (exec mapToLower whisper s call) !!! c = sockets s !!! c.
Proof.
  intros Hc. destruct call; cbn.
  - unfold Initialize. by destruct (running s).
  - unfold ProcessAudio. destruct (running s); cbn [negb]; [|done].
    destruct (chan_closed (audioQueue s)); [done|].
    by destruct (chan_has_room (audioQueue s)).
  - unfold transcribeAudio. destruct (model s) as [m|]; [|done].
    destruct (Model_Transcribe whisper m audioData); [|done].
    destruct (chan_closed (results s)); [done|].
    by destruct (chan_has_room (results s)).
  - done.
  - done.
  - rewrite BroadcastResult_sockets. destruct (decide _); [|done].
    by apply after_delivery_closed.
  - unfold Close, chan_close.
    destruct (chan_closed (audioQueue s)); cbn; [by apply Close_sockets_closed|].
    destruct (chan_closed (results s)); cbn; by apply Close_sockets_closed.
Qed.

Lemma execs_sockets_closed s cs c :
  conn_closed (sockets s !!! c) = true ->
  sockets (execs mapToLower whisper s cs) !!! c = sockets s !!! c.
Proof.
  intros Hc. induction cs as [|call cs IH] using rev_ind; [done|].
  rewrite execs_snoc, exec_sockets_closed; rewrite IH; done.
Qed.

End Broadcast.

(** Removing a connection from the registry is idempotent, so the teardown
    of a connection handler after the broadcaster has pruned the connection
    changes nothing. *)
Theorem RemoveWebSocket_idempotent (s : WhisperService) (conn : nat) :
  RemoveWebSocket (RemoveWebSocket s conn) conn = RemoveWebSocket s conn /\
  (conn ∉ dom (connections (RemoveWebSocket s conn))) /\
  forall result,
    snd (WriteJSON (sockets s !!! conn) (MsgResult result)) = true ->
    RemoveWebSocket (BroadcastResult s result) conn = BroadcastResult s result.
Proof.
  split; [|split].
  - unfold RemoveWebSocket, set_connections. cbn. by rewrite delete_delete_eq.
  - unfold RemoveWebSocket. cbn. rewrite dom_delete. set_unfold. tauto.
  - intros result Hf. rewrite WriteJSON_fails in Hf.
    unfold RemoveWebSocket, set_connections.
    rewrite delete_id; [by destruct (BroadcastResult s result)|].
    by rewrite BroadcastResult_connections, Hf.
Qed.

(** C5. In one [BroadcastResult]: a registered connection whose write
    fails is out of the registry and closed when the call returns, and has
    been sent nothing, neither then nor by any later call on the service;
    a registered connection whose write succeeds has been sent the result
    as its newest message and stays registered; a connection that is not
    registered is not touched. With exactly two registered connections,
    one failing and one not, the registry shrinks from 2 to 1 and the
    survivor has the result. *)
Theorem BroadcastResult_prunes (mapToLower : gostring -> gostring)
    (whisper : list float32 -> whisperRun)
    (s : WhisperService) (result : TranscriptionResult) :
  let s' := BroadcastResult s result in
  let fails conn := snd (WriteJSON (sockets s !!! conn) (MsgResult result)) in
  (forall conn, conn ∈ dom (connections s) -> fails conn = true ->
     (conn ∉ dom (connections s')) /\
     conn_closed (sockets s' !!! conn) = true /\
     forall cs,
       conn_written (sockets (execs mapToLower whisper s' cs) !!! conn)
       = conn_written (sockets s !!! conn)) /\
  (forall conn, conn ∈ dom (connections s) -> fails conn = false ->
     connections s' !! conn = connections s !! conn /\
     conn_closed (sockets s' !!! conn) = false /\
     conn_written (sockets s' !!! conn)
     = conn_written (sockets s !!! conn) ++ [MsgResult result]) /\
  (forall conn, conn ∉ dom (connections s) ->
     (conn ∉ dom (connections s')) /\ sockets s' !!! conn = sockets s !!! conn) /\
  (forall a b, dom (connections s) = {[a; b]} ->
     fails a = true -> fails b = false ->
     size (connections s) = 2 /\ size (connections s') = 1 /\
     b ∈ dom (connections s') /\
     conn_written (sockets s' !!! b)
     = conn_written (sockets s !!! b) ++ [MsgResult result]).
Proof.
  intros s' fails.
  assert (Hfail : forall conn, conn ∈ dom (connections s) -> fails conn = true ->
            (conn ∉ dom (connections s')) /\
            conn_closed (sockets s' !!! conn) = true /\
            sockets s' !!! conn = Conn_Close (sockets s !!! conn)).
  { intros conn Hin Hf. subst fails s'. cbn in Hf. rewrite WriteJSON_fails in Hf.
    rewrite not_elem_of_dom, BroadcastResult_connections, Hf.
    rewrite BroadcastResult_sockets, decide_True by done.
    unfold after_delivery. by rewrite Hf. }
  assert (Hok : forall conn, conn ∈ dom (connections s) -> fails conn = false ->
            connections s' !! conn = connections s !! conn /\
            conn_closed (sockets s' !!! conn) = false /\
            conn_written (sockets s' !!! conn)
            = conn_written (sockets s !!! conn) ++ [MsgResult result]).
  { intros conn Hin Hf. subst fails s'. cbn in Hf. rewrite WriteJSON_fails in Hf.
    rewrite BroadcastResult_connections, Hf.
    rewrite BroadcastResult_sockets, decide_True by done.
    unfold after_delivery. rewrite Hf. cbn. split; [done|]. split; [|done].
    unfold write_fails in Hf. by apply orb_false_iff in Hf as [-> _]. }
  split; [|split; [exact Hok|split]].
  - intros conn Hin Hf. destruct (Hfail conn Hin Hf) as (Hout & Hcl & Heq).
    split; [done|]. split; [done|]. intros cs.
    rewrite execs_sockets_closed by done. by rewrite Heq.
  - intros conn Hout. subst s'. split.
    + rewrite not_elem_of_dom, BroadcastResult_connections.
      rewrite not_elem_of_dom in Hout. rewrite Hout. by destruct (write_fails _).
    + by rewrite BroadcastResult_sockets, decide_False.
  - intros a b Hdom Hfa Hfb.
    assert (a <> b) as Hab by (intros ->; congruence).
    assert (Hina : a ∈ dom (connections s)).
    { rewrite Hdom. apply elem_of_union_l. by apply elem_of_singleton. }
    assert (Hinb : b ∈ dom (connections s)).
    { rewrite Hdom. apply elem_of_union_r. by apply elem_of_singleton. }
    destruct (Hfail a Hina Hfa) as (Houta & _).
    destruct (Hok b Hinb Hfb) as (Hkeep & _ & Hw).
    assert (Hdom' : dom (connections s') = {[b]}).
    { apply set_eq. intros c. rewrite elem_of_singleton. split.
      - intros Hc. destruct (decide (c = b)) as [|Hcb]; [done|]. exfalso.
        destruct (decide (c = a)) as [->|Hca]; [done|].
        apply elem_of_dom in Hc as [v Hv]. subst s'.
        rewrite BroadcastResult_connections in Hv.
        destruct (write_fails _); [done|].
        assert (c ∈ dom (connections s)) as Hc' by (apply elem_of_dom; eauto).
        rewrite Hdom in Hc'. apply elem_of_union in Hc' as [Hc' | Hc'];
          by apply elem_of_singleton in Hc'.
      - intros ->. apply elem_of_dom. rewrite Hkeep. by apply elem_of_dom. }
    rewrite <- !size_dom, Hdom, Hdom'.
    rewrite size_union, !size_singleton
      by (intros x Hx1 Hx2; apply elem_of_singleton in Hx1, Hx2; congruence).
    repeat split; [by apply elem_of_singleton | done].
Qed.

(** Connection 1 has lost its peer, connection 2 is healthy. *)
Lemma BroadcastResult_prunes_witness :
  let r := mkResult (lit "hey alfred ") true true zeroFloat64 in
  let s := AddWebSocket (AddWebSocket
             (NewWhisperService None {[1 := mkConn false true []; 2 := mkConn false false []]})
             1) 2 in
  let s' := BroadcastResult s r in
  size (connections s) = 2 /\ size (connections s') = 1 /\
  2 ∈ dom (connections s') /\
  conn_written (sockets s' !!! 2) = conn_written (sockets s !!! 2) ++ [MsgResult r].
Proof.
  intros r s s'.
  apply (proj2 (proj2 (proj2 (BroadcastResult_prunes id (fun _ => ProcessFails) s r))) 1 2).
  - apply set_eq. intros c. subst s. cbn.
    rewrite !dom_insert, dom_empty. set_solver.
  - reflexivity.
  - reflexivity.
Defined.

(* --------------------------------------------------------------------- *)
(** ** Mutual exclusion of the engine *)
(* --------------------------------------------------------------------- *)

Section Mutex.

Import Workers.

Lemma gstep_holds m g a g' m' :
  gstep m g a g' m' ->
  match a with
  | Acquire => holds g = false /\ holds g' = true
  | Keep => holds g = true /\ holds g' = true
  | Release => holds g = true /\ holds g' = false
  end.
Proof. by destruct 1. Qed.

Lemma starting_not_holds g : starting g = true -> holds g = false.
Proof. by destruct g as [[]|[]|[]]. Qed.

Lemma step_lock_inv st st' : step st st' -> lock_inv st -> lock_inv st'.
Proof.
  intros Hstep Inv. destruct Hstep as [st g Hg | st i g a g' m' Hi Hg Hfree];
    intros j h Hj Hh; cbn in *.
  - apply lookup_app_Some in Hj as [Hj | [_ Hj]]; [by eapply Inv|].
    apply list_lookup_singleton_Some in Hj as [_ <-].
    apply starting_not_holds in Hg. congruence.
  - apply gstep_holds in Hg.
    destruct (decide (j = i)) as [->|Hne].
    + rewrite list_lookup_insert_eq in Hj by by eapply lookup_lt_Some.
      injection Hj as <-.
      destruct a as [| |]; destruct Hg as [Hg Hg'].
      * done.
      * exact (Inv i g Hi Hg).
      * congruence.
    + rewrite list_lookup_insert_ne in Hj by done.
      pose proof (Inv j h Hj Hh) as Hmu.
      destruct a.
      * specialize (Hfree eq_refl). congruence.
      * done.
      * pose proof (Inv i g Hi (proj1 Hg)). congruence.
Qed.

Lemma reachable_lock_inv st : reachable st -> lock_inv st.
Proof.
  unfold reachable. intros H. apply rtc_nsteps in H as [n H].
  revert st H. induction n as [|n IH]; intros st H.
  - inversion H; subst. by intros i g Hi.
  - apply nsteps_inv_r in H as (mid & Hmid & Hlast).
    eapply step_lock_inv; [exact Hlast | by apply IH].
Qed.

Lemma step_past_check_loaded st st' :
  step st st' -> lock_inv st -> past_check_loaded st -> past_check_loaded st'.
Proof.
  intros Hstep Hlock Inv. destruct Hstep as [st g Hg | st i g a g' m' Hi Hg Hfree];
    intros k p Hk Hp; cbn in *.
  - apply lookup_app_Some in Hk as [Hk | [_ Hk]]; [by eapply Inv|].
    apply list_lookup_singleton_Some in Hk as [_ ->].
    by destruct Hp as [-> | ->].
  - destruct (decide (k = i)) as [->|Hne].
    + rewrite list_lookup_insert_eq in Hk by by eapply lookup_lt_Some.
      injection Hk as ->.
      inversion Hg; subst; try (by destruct Hp); try done.
      eapply Inv; [exact Hi | by left].
    + rewrite list_lookup_insert_ne in Hk by done.
      pose proof (Inv k p Hk Hp) as Hloaded.
      assert (Hkh : holds (Worker p) = true) by by destruct Hp as [-> | ->].
      pose proof (Hlock k _ Hk Hkh) as Hmu.
      inversion Hg; subst; try congruence.
      pose proof (Hlock i _ Hi eq_refl). congruence.
Qed.

Lemma reachable_past_check_loaded st : reachable st -> past_check_loaded st.
Proof.
  intros H. pose proof H as H'. unfold reachable in H.
  apply rtc_nsteps in H as [n H]. clear H'.
  revert st H. induction n as [|n IH]; intros st H.
  - inversion H; subst. by intros i p Hi.
  - apply nsteps_inv_r in H as (mid & Hmid & Hlast).
    eapply step_past_check_loaded; [exact Hlast | | by apply IH].
    apply reachable_lock_inv. by eapply rtc_nsteps_2.
Qed.

Lemma step_no_Close_done st st' : step st st' -> no_Close_done st -> no_Close_done st'.
Proof.
  intros Hstep Inv. destruct Hstep as [st g Hg | st i g a g' m' Hi Hg Hfree];
    intros Hl j p Hj; cbn in *.
  - apply lookup_app_Some in Hj as [Hj | [_ Hj]]; [by eapply Inv|].
    apply list_lookup_singleton_Some in Hj as [_ ->]. by destruct p.
  - destruct (decide (j = i)) as [->|Hne].
    + rewrite list_lookup_insert_eq in Hj by by eapply lookup_lt_Some.
      injection Hj as ->. inversion Hg; subst; done.
    + rewrite list_lookup_insert_ne in Hj by done.
      inversion Hg; subst; try done; by eapply Inv.
Qed.

Lemma reachable_no_Close_done st : reachable st -> no_Close_done st.
Proof.
  unfold reachable. intros H. apply rtc_nsteps in H as [n H].
  revert st H. induction n as [|n IH]; intros st H.
  - inversion H; subst. by intros _ j p Hj.
  - apply nsteps_inv_r in H as (mid & Hmid & Hlast).
    eapply step_no_Close_done; [exact Hlast | by apply IH].
Qed.

End Mutex.

(** Under every interleaving, while a worker is inside [Transcribe] or at
    its send it holds [s.mu], the model is still loaded, and every
    goroutine running [Close] is still waiting at its [Lock]: none has
    entered the body of [Close], where the channels are closed and the
    model is released. A worker that starts after a [Close] stops at the
    nil check instead. *)
Theorem send_before_Close (st : Workers.system) (i : nat) (p : Workers.workerPc) :
  Workers.reachable st ->
  Workers.goroutines st !! i = Some (Workers.Worker p) ->
  p = Workers.InTranscribe \/ p = Workers.AtSend ->
  Workers.loaded st = true /\ Workers.mu st = Some i /\
  (forall j q, Workers.goroutines st !! j = Some (Workers.Closer q) ->
     q = Workers.CallAtLock).
Proof.
  intros Hreach Hi Hp.
  assert (Hloaded : Workers.loaded st = true) by by eapply reachable_past_check_loaded.
  assert (Hmu : Workers.mu st = Some i).
  { apply (reachable_lock_inv st Hreach i _ Hi). by destruct Hp as [-> | ->]. }
  split; [done|]. split; [done|]. intros j q Hj.
  destruct q; [done | | ].
  - pose proof (reachable_lock_inv st Hreach j _ Hj eq_refl) as Hmu'.
    assert (j = i) as -> by congruence. congruence.
  - by destruct (reachable_no_Close_done st Hreach Hloaded j _ Hj).
Qed.

(** C6. In every state that goroutines running [transcribeAudio], [Close]
    and [Initialize] can reach under any interleaving, a worker that is
    inside [s.model.Transcribe] holds [s.mu], and every goroutine that is
    between its [Lock] and its [Unlock] (another worker at or inside
    [Transcribe], or a [Close] releasing the model) is that same worker:
    two invocations of [Transcribe] never overlap. *)
Theorem Transcribe_serialized (st : Workers.system) (i : nat) :
  Workers.reachable st ->
  Workers.goroutines st !! i = Some (Workers.Worker Workers.InTranscribe) ->
  Workers.mu st = Some i /\
  (forall j, Workers.goroutines st !! j = Some (Workers.Worker Workers.InTranscribe) ->
     j = i) /\
  (forall j g, Workers.goroutines st !! j = Some g -> Workers.holds g = true -> j = i).
Proof.
  intros Hreach Hi. pose proof (reachable_lock_inv st Hreach) as Inv.
  pose proof (Inv i _ Hi eq_refl) as Hmu.
  split; [done|]. split.
  - intros j Hj. pose proof (Inv j _ Hj eq_refl). congruence.
  - intros j g Hj Hg. pose proof (Inv j g Hj Hg). congruence.
Qed.

(** Two windows are flushed, the first worker is inside [Transcribe], the
    second waits for the lock. *)
Lemma Transcribe_serialized_witness :
  let st := Workers.mkSystem (Some 0) true
              [Workers.Worker Workers.InTranscribe; Workers.Worker Workers.AtLock] in
  Workers.mu st = Some 0 /\
  (forall j, Workers.goroutines st !! j = Some (Workers.Worker Workers.InTranscribe) ->
     j = 0) /\
  (forall j g, Workers.goroutines st !! j = Some g -> Workers.holds g = true -> j = 0).
Proof.
  intros st. apply (Transcribe_serialized st 0); [|reflexivity].
  unfold Workers.reachable.
  eapply rtc_l; [apply (Workers.step_go _ (Workers.Worker Workers.AtLock)); reflexivity|].
  eapply rtc_l; [apply (Workers.step_go _ (Workers.Worker Workers.AtLock)); reflexivity|].
  eapply rtc_l.
  { apply (Workers.step_goroutine
             (Workers.mkSystem None true
                [Workers.Worker Workers.AtLock; Workers.Worker Workers.AtLock])
             0 (Workers.Worker Workers.AtLock) Workers.Acquire
             (Workers.Worker Workers.AtModelCheck) true eq_refl (Workers.worker_lock true)).
    reflexivity. }
  eapply rtc_l.
  { apply (Workers.step_goroutine
             (Workers.mkSystem (Some 0) true
                [Workers.Worker Workers.AtModelCheck; Workers.Worker Workers.AtLock])
             0 (Workers.Worker Workers.AtModelCheck) Workers.Keep
             (Workers.Worker Workers.InTranscribe) true eq_refl Workers.worker_call).
    discriminate. }
  apply rtc_refl.
Defined.

Lemma send_before_Close_witness :
  let st := Workers.mkSystem (Some 0) true
              [Workers.Worker Workers.InTranscribe; Workers.Closer Workers.CallAtLock] in
  Workers.loaded st = true /\ Workers.mu st = Some 0 /\
  (forall j q, Workers.goroutines st !! j = Some (Workers.Closer q) ->
     q = Workers.CallAtLock).
Proof.
  intros st.
  apply (send_before_Close st 0 Workers.InTranscribe); [|reflexivity|by left].
  unfold Workers.reachable.
  eapply rtc_l; [apply (Workers.step_go _ (Workers.Worker Workers.AtLock)); reflexivity|].
  eapply rtc_l; [apply (Workers.step_go _ (Workers.Closer Workers.CallAtLock)); reflexivity|].
  eapply rtc_l.
  { apply (Workers.step_goroutine
             (Workers.mkSystem None true
                [Workers.Worker Workers.AtLock; Workers.Closer Workers.CallAtLock])
             0 (Workers.Worker Workers.AtLock) Workers.Acquire
             (Workers.Worker Workers.AtModelCheck) true eq_refl (Workers.worker_lock true)).
    reflexivity. }
  eapply rtc_l.
  { apply (Workers.step_goroutine
             (Workers.mkSystem (Some 0) true
                [Workers.Worker Workers.AtModelCheck; Workers.Closer Workers.CallAtLock])
             0 (Workers.Worker Workers.AtModelCheck) Workers.Keep
             (Workers.Worker Workers.InTranscribe) true eq_refl Workers.worker_call).
    discriminate. }
  apply rtc_refl.
Defined.

(* --------------------------------------------------------------------- *)
(** ** Cutting and splitting *)
(* --------------------------------------------------------------------- *)

Section Cutting.

Lemma HasPrefix_drop (s sep : gostring) :
  HasPrefix s sep = true -> s = sep ++ drop (length sep) s.
Proof. intros [post ->]%HasPrefix_spec. by rewrite drop_app_length. Qed.

Lemma Cut_Some (s sep before after : gostring) :
  Cut s sep = Some (before, after) -> s = before ++ sep ++ after.
Proof.
  revert before. induction s as [|c s IH]; intros before; cbn [Cut].
  - destruct (HasPrefix [] sep) eqn:Hp; [|done].
    intros [= <- <-]. by apply HasPrefix_drop.
  - destruct (HasPrefix (c :: s) sep) eqn:Hp.
    + intros [= <- <-]. by apply HasPrefix_drop.
    + destruct (Cut s sep) as [[b a]|] eqn:Hcut; [|done].
      intros [= <- <-]. cbn. f_equal. by apply IH.
Qed.

(** [Cut] cuts at the first instance. *)
Lemma Cut_first (s sep before after : gostring) :
  Cut s sep = Some (before, after) ->
  forall before' after', s = before' ++ sep ++ after' -> length before <= length before'.
Proof.
  revert before. induction s as [|c s IH]; intros before; cbn [Cut].
  - destruct (HasPrefix [] sep); [|done]. intros [= <- <-] ??; cbn; lia.
  - destruct (HasPrefix (c :: s) sep) eqn:Hp.
    + intros [= <- <-] ??; cbn; lia.
    + destruct (Cut s sep) as [[b a]|] eqn:Hcut; [|done].
      intros [= <- <-] before' after' Heq.
      destruct before' as [|c' before']; cbn in Heq.
      * assert (HasPrefix (c :: s) sep = true) by (apply HasPrefix_spec; eauto).
        congruence.
      * injection Heq as -> Heq. cbn. apply le_n_S. by eapply IH.
Qed.

Lemma Cut_None (s sep : gostring) :
  Cut s sep = None <-> ~ exists before after, s = before ++ sep ++ after.
Proof.
  split.
  - induction s as [|c s IH]; cbn [Cut].
    + destruct (HasPrefix [] sep) eqn:Hp; [done|]. intros _ (b & a & Heq).
      assert (HasPrefix [] sep = true); [|congruence].
      apply HasPrefix_spec. destruct b; [by exists a | discriminate].
    + destruct (HasPrefix (c :: s) sep) eqn:Hp; [done|].
      destruct (Cut s sep) as [[b a]|] eqn:Hcut; [done|].
      intros _ (b & a & Heq). destruct b as [|c' b]; cbn in Heq.
      * assert (HasPrefix (c :: s) sep = true) by (apply HasPrefix_spec; eauto).
        congruence.
      * injection Heq as -> Heq. apply IH; eauto.
  - intros Hno. destruct (Cut s sep) as [[b a]|] eqn:Hcut; [|done].
    exfalso. apply Hno. exists b, a. by apply Cut_Some.
Qed.

(** The first piece of [strings.Split] is the text before the first
    separator, or the whole text. *)
Lemma Split_go_hd (sep cur s : gostring) :
  sep <> [] ->
  hd [] (Split_go sep 0 cur s) =
  rev cur ++ match Cut s sep with Some (before, _) => before | None => s end.
Proof.
  intros Hsep. revert cur. induction s as [|c s IH]; intros cur.
  - cbn. destruct sep; [done|]. cbn. by rewrite app_nil_r.
  - cbn [Split_go Cut]. destruct (HasPrefix (c :: s) sep) eqn:Hp.
    + cbn. by rewrite app_nil_r.
    + rewrite IH. cbn [rev]. rewrite <- app_assoc. cbn.
      by destruct (Cut s sep) as [[b a]|].
Qed.

Lemma Split_hd (s sep : gostring) :
  sep <> [] ->
  hd [] (Split s sep) = match Cut s sep with Some (before, _) => before | None => s end.
Proof. intros Hsep. unfold Split. by rewrite Split_go_hd. Qed.

End Cutting.

(* --------------------------------------------------------------------- *)
(** ** Sentences *)
(* --------------------------------------------------------------------- *)

Section Sentences.

Import TTS.

Lemma skipWhile_split f s :
  exists p, s = p ++ skipWhile f s /\ Forall (fun c => f c = true) p.
Proof.
  induction s as [|c s (p & Hp & Hall)]; cbn; [by exists []|].
  destruct (f c) eqn:Hc; [|by exists []].
  exists (c :: p). split; [by rewrite Hp at 1 | by constructor].
Qed.

Lemma skipWhile_app f p r :
  Forall (fun c => f c = true) p -> skipWhile f (p ++ r) = skipWhile f r.
Proof. induction 1 as [|c p Hc _ IH]; cbn; [done | by rewrite Hc]. Qed.

Lemma reSpace_not_punct c : reSpace c = true -> isPunct c = false.
Proof.
  unfold reSpace, isPunct. rewrite !orb_true_iff, !orb_false_iff, !N.eqb_eq, !N.eqb_neq.
  intros [[[[-> | ->] | ->] | ->] | ->]; repeat split; lia.
Qed.

Lemma matchTerminator_Some s after :
  matchTerminator s = Some after -> exists t, isTerminator t /\ s = t ++ after.
Proof.
  unfold matchTerminator. destruct s as [|c s]; [done|].
  destruct (isPunct c) eqn:Hc; [|done].
  destruct (skipWhile_split isPunct (c :: s)) as (p & Hp & Hpunct).
  destruct (skipWhile isPunct (c :: s)) as [|w0 r] eqn:Hr; [done|].
  destruct (reSpace w0) eqn:Hw0; [|done]. intros [= <-].
  destruct (skipWhile_split reSpace r) as (w & Hw & Hspace).
  exists (p ++ w0 :: w). split.
  - exists p, (w0 :: w). repeat split; try done; [|by constructor].
    intros ->. cbn in Hp. injection Hp as -> _.
    apply reSpace_not_punct in Hw0. congruence.
  - rewrite Hp, <- app_assoc. cbn. by rewrite <- Hw.
Qed.

Lemma matchTerminator_complete t after :
  isTerminator t -> is_Some (matchTerminator (t ++ after)).
Proof.
  intros (p & w & -> & Hp & Hw & Hpunct & Hspace).
  destruct p as [|c p]; [done|]. destruct w as [|w0 w]; [done|].
  apply Forall_cons in Hpunct as Hc. destruct Hc as [Hc _].
  apply Forall_cons in Hspace as [Hw0 _].
  unfold matchTerminator. rewrite <- app_assoc. cbn [app]. rewrite Hc.
  change (c :: p ++ w0 :: w ++ after) with ((c :: p) ++ w0 :: w ++ after).
  rewrite skipWhile_app by done. cbn [skipWhile].
  rewrite (reSpace_not_punct _ Hw0), Hw0. eauto.
Qed.

Lemma findTerminator_Some s before after :
  findTerminator s = Some (before, after) ->
  exists t, isTerminator t /\ s = before ++ t ++ after.
Proof.
  revert before. induction s as [|c s IH]; intros before; cbn [findTerminator].
  - by destruct (matchTerminator []) eqn:Hm.
  - destruct (matchTerminator (c :: s)) as [a|] eqn:Hm.
    + intros [= <- <-]. by apply matchTerminator_Some.
    + destruct (findTerminator s) as [[b a]|]; [|done].
      intros [= <- <-]. destruct (IH b eq_refl) as (t & Ht & ->). by exists t.
Qed.

(** [findTerminator] finds the leftmost terminator. *)
Lemma findTerminator_first s before after :
  findTerminator s = Some (before, after) ->
  forall before' t' after', isTerminator t' -> s = before' ++ t' ++ after' ->
    length before <= length before'.
Proof.
  revert before. induction s as [|c s IH]; intros before; cbn [findTerminator].
  - by destruct (matchTerminator []) eqn:Hm.
  - destruct (matchTerminator (c :: s)) as [a|] eqn:Hm.
    + intros [= <- <-] ????; cbn; lia.
    + destruct (findTerminator s) as [[b a]|] eqn:Hf; [|done].
      intros [= <- <-] before' t' after' Ht Heq.
      destruct before' as [|c' before']; cbn in Heq.
      * destruct (matchTerminator_complete t' after' Ht) as [x Hx].
        rewrite <- Heq in Hx. congruence.
      * injection Heq as -> Heq. cbn. apply le_n_S. by eapply IH.
Qed.

Lemma regexpSplit_SS n s :
  regexpSplit (S (S n)) s =
  match findTerminator s with
  | Some (before, after) => before :: regexpSplit (S n) after
  | None => [s]
  end.
Proof. reflexivity. Qed.

(** The pieces of [Split(s, n)], with the terminators that were between
    them, are [s] again. *)
Lemma regexpSplit_weave n s :
  exists seps, Forall isTerminator seps /\
    length (regexpSplit (S n) s) = S (length seps) /\
    s = weave (regexpSplit (S n) s) seps.
Proof.
  revert s. induction n as [|n IH]; intros s.
  - exists []. by repeat split.
  - rewrite regexpSplit_SS.
    destruct (findTerminator s) as [[b a]|] eqn:Hf.
    + apply findTerminator_Some in Hf as (t & Ht & ->).
      destruct (IH a) as (seps & Hall & Hlen & Hw).
      exists (t :: seps). split; [by constructor|].
      split; [cbn [length]; by rewrite Hlen|].
      cbn [weave]. by rewrite <- Hw.
    + exists []. by repeat split.
Qed.

Lemma regexpSplit_length n s : length (regexpSplit n s) <= n.
Proof.
  revert s. induction n as [|n IH]; intros s; [done|].
  destruct n; [cbn; lia|]. rewrite regexpSplit_SS.
  destruct (findTerminator s) as [[b a]|]; cbn [length]; [|lia].
  apply le_n_S, IH.
Qed.

End Sentences.

Section Splitting.

Import TTS.

Lemma skipWhile_head f s c rest : skipWhile f s = c :: rest -> f c = false.
Proof.
  induction s as [|a s IH]; cbn; [done|].
  destruct (f a) eqn:Ha; [exact IH|]. by intros [= <- _].
Qed.

(** The white space of a terminator is taken to its end. *)
Lemma matchTerminator_longest s after :
  matchTerminator s = Some after -> forall c rest, after = c :: rest -> reSpace c = false.
Proof.
  unfold matchTerminator. destruct s as [|a s]; [done|].
  destruct (isPunct a); [|done].
  destruct (skipWhile isPunct (a :: s)) as [|w0 r]; [done|].
  destruct (reSpace w0); [|done]. intros [= <-] c rest Heq.
  by eapply skipWhile_head.
Qed.

Lemma findTerminator_longest s before after :
  findTerminator s = Some (before, after) ->
  forall c rest, after = c :: rest -> reSpace c = false.
Proof.
  revert before. induction s as [|c0 s IH]; intros before; cbn [findTerminator].
  - by destruct (matchTerminator []) eqn:Hm.
  - destruct (matchTerminator (c0 :: s)) as [a|] eqn:Hm.
    + intros [= <- <-]. by eapply matchTerminator_longest.
    + destruct (findTerminator s) as [[b a]|] eqn:Hf; [|done].
      intros [= <- <-]. by eapply IH.
Qed.

(** [findTerminator] misses no terminator. *)
Lemma findTerminator_None s : findTerminator s = None -> no_terminator s.
Proof.
  intros Hnone (before & t & after & Ht & Heq). revert s Hnone Heq.
  induction before as [|c before IH]; intros s Hnone ->.
  - destruct (matchTerminator_complete t after Ht) as [x Hx]. cbn [app] in *.
    destruct (t ++ after) as [|c s]; cbn [findTerminator] in Hnone;
      by rewrite Hx in Hnone.
  - cbn [app findTerminator] in Hnone.
    destruct (matchTerminator (c :: before ++ t ++ after)); [done|].
    destruct (findTerminator (before ++ t ++ after)) as [[b a]|] eqn:Hf; [done|].
    by eapply IH.
Qed.

Lemma findTerminator_split s before after :
  findTerminator s = Some (before, after) -> exists t, first_terminator s before t after.
Proof.
  intros Hf. destruct (findTerminator_Some _ _ _ Hf) as (t & Ht & Heq).
  exists t. split; [done|]. split; [done|]. split.
  - intros before' t' after' Ht' Heq'. by eapply findTerminator_first.
  - by eapply findTerminator_longest.
Qed.

(** [regexpSplit] cuts at the sentence ends, from the left. *)
Lemma regexpSplit_sentences n s : sentence_split (S n) s (regexpSplit (S n) s).
Proof.
  revert s. induction n as [|n IH]; intros s; [constructor|].
  rewrite regexpSplit_SS. destruct (findTerminator s) as [[b a]|] eqn:Hf.
  - destruct (findTerminator_split _ _ _ Hf) as [t Ht].
    eapply split_next; [exact Ht | apply IH].
  - apply split_whole. by apply findTerminator_None.
Qed.

Lemma Join_with_full_stops pieces : Join pieces (lit ". ") = with_full_stops pieces.
Proof.
  destruct pieces as [|p ps]; [done|]. revert p.
  induction ps as [|q ps IH]; intros p.
  - cbn. by rewrite app_nil_r.
  - change (Join (p :: q :: ps) (lit ". ")) with (p ++ lit ". " ++ Join (q :: ps) (lit ". ")).
    rewrite IH. unfold with_full_stops. cbn [map concat]. by rewrite <- !app_assoc.
Qed.

Lemma Cut_first_paragraph text :
  first_paragraph text (match Cut text [newline; newline] with
                        | Some (before, _) => before
                        | None => text
                        end).
Proof.
  destruct (Cut text [newline; newline]) as [[before after]|] eqn:Hcut.
  - left. exists after. split; [by apply Cut_Some|].
    intros paragraph' rest' Heq. by eapply Cut_first.
  - right. split; [done | by apply Cut_None].
Qed.

End Splitting.

(* --------------------------------------------------------------------- *)
(** ** [ExtractVerbalResponse] *)
(* --------------------------------------------------------------------- *)

Section Trimming.

Lemma trimLeft_spec s :
  (exists p, s = p ++ trimLeft s) /\ trimLeft (trimLeft s) = trimLeft s.
Proof.
  induction s as [s IH] using (induction_ltof1 _ (@length ascii)). unfold ltof in IH.
  destruct s as [|a s1]; [split; [by exists []|done]|].
  cbn [trimLeft]. destruct (asciiSpace a) eqn:Ha.
  { destruct (IH s1) as [[p Hp] Hi]; [cbn; lia|]. split; [|done].
    exists (a :: p). cbn. by f_equal. }
  destruct s1 as [|b s2].
  { split; [by exists []|]. cbn [trimLeft]. by rewrite Ha. }
  destruct (space2 a b) eqn:Hab.
  { destruct (IH s2) as [[p Hp] Hi]; [cbn; lia|]. split; [|done].
    exists (a :: b :: p). cbn. by do 2 f_equal. }
  destruct s2 as [|c s3].
  { split; [by exists []|]. cbn [trimLeft]. by rewrite Ha, Hab. }
  destruct (space3 a b c) eqn:Habc.
  { destruct (IH s3) as [[p Hp] Hi]; [cbn; lia|]. split; [|done].
    exists (a :: b :: c :: p). cbn. by do 3 f_equal. }
  split; [by exists []|]. cbn [trimLeft]. by rewrite Ha, Hab, Habc.
Qed.

Lemma trimLeft_length s : length (trimLeft s) <= length s.
Proof.
  destruct (trimLeft_spec s) as [[p Hp] _].
  apply (f_equal length) in Hp. rewrite length_app in Hp. lia.
Qed.

(** A string that [trimLeft] leaves alone starts with no white space, and
    so does each of its prefixes. *)
Lemma trimLeft_fixed_prefix p q : trimLeft (p ++ q) = p ++ q -> trimLeft p = p.
Proof.
  intros H.
  destruct p as [|a p1]; [done|]. cbn [app trimLeft] in H. cbn [trimLeft].
  destruct (asciiSpace a) eqn:Ha.
  { pose proof (trimLeft_length (p1 ++ q)) as Hl. rewrite H in Hl. cbn in Hl. lia. }
  destruct p1 as [|b p2]; [done|]. cbn [app] in H.
  destruct (space2 a b) eqn:Hab.
  { pose proof (trimLeft_length (p2 ++ q)) as Hl. rewrite H in Hl. cbn in Hl. lia. }
  destruct p2 as [|c p3]; [done|]. cbn [app] in H.
  destruct (space3 a b c) eqn:Habc; [|done].
  pose proof (trimLeft_length (p3 ++ q)) as Hl. rewrite H in Hl. cbn in Hl. lia.
Qed.

Lemma trimLeft_rev_spec s :
  (exists p, s = p ++ trimLeft_rev s) /\ trimLeft_rev (trimLeft_rev s) = trimLeft_rev s.
Proof.
  induction s as [s IH] using (induction_ltof1 _ (@length ascii)). unfold ltof in IH.
  destruct s as [|c s1]; [split; [by exists []|done]|].
  cbn [trimLeft_rev]. destruct (asciiSpace c) eqn:Hc.
  { destruct (IH s1) as [[p Hp] Hi]; [cbn; lia|]. split; [|done].
    exists (c :: p). cbn. by f_equal. }
  destruct s1 as [|b s2].
  { split; [by exists []|]. cbn [trimLeft_rev]. by rewrite Hc. }
  destruct (space2 b c) eqn:Hbc.
  { destruct (IH s2) as [[p Hp] Hi]; [cbn; lia|]. split; [|done].
    exists (c :: b :: p). cbn. by do 2 f_equal. }
  destruct s2 as [|a s3].
  { split; [by exists []|]. cbn [trimLeft_rev]. by rewrite Hc, Hbc. }
  destruct (space3 a b c) eqn:Habc.
  { destruct (IH s3) as [[p Hp] Hi]; [cbn; lia|]. split; [|done].
    exists (c :: b :: a :: p). cbn. by do 3 f_equal. }
  split; [by exists []|]. cbn [trimLeft_rev]. by rewrite Hc, Hbc, Habc.
Qed.

(** [trimRight] keeps a prefix. *)
Lemma trimRight_prefix s : exists q, s = trimRight s ++ q.
Proof.
  unfold trimRight. destruct (trimLeft_rev_spec (rev s)) as [[p Hp] _].
  exists (rev p). apply (f_equal (@rev ascii)) in Hp.
  by rewrite rev_involutive, rev_app_distr in Hp.
Qed.

Lemma trimRight_idemp s : trimRight (trimRight s) = trimRight s.
Proof.
  unfold trimRight. rewrite rev_involutive.
  by rewrite (proj2 (trimLeft_rev_spec (rev s))).
Qed.

Lemma TrimSpace_length s : length (TrimSpace s) <= length s.
Proof.
  unfold TrimSpace. destruct (trimRight_prefix (trimLeft s)) as [q Hq].
  pose proof (trimLeft_length s) as Hl.
  apply (f_equal length) in Hq. rewrite length_app in Hq. lia.
Qed.

(** Trimming what is trimmed changes nothing. *)
Lemma TrimSpace_idemp s : TrimSpace (TrimSpace s) = TrimSpace s.
Proof.
  unfold TrimSpace. destruct (trimRight_prefix (trimLeft s)) as [q Hq].
  assert (trimLeft (trimRight (trimLeft s)) = trimRight (trimLeft s)) as ->.
  { apply (trimLeft_fixed_prefix _ q). rewrite <- Hq. apply trimLeft_spec. }
  apply trimRight_idemp.
Qed.

Lemma TrimSpace_blank s : Forall (fun c => asciiSpace c = true) s -> TrimSpace s = [].
Proof.
  intros H. unfold TrimSpace.
  assert (trimLeft s = []) as ->; [|done].
  induction H as [|c s Hc _ IH]; [done|]. cbn [trimLeft]. by rewrite Hc.
Qed.

End Trimming.

Section Trimmed.

Lemma blank_nil : blank [].
Proof. exists []. by split. Qed.

Lemma blank_cons u l : space_rune u -> blank l -> blank (u ++ l).
Proof.
  intros Hu (runes & Hall & ->). exists (u :: runes). split; [by constructor | done].
Qed.

Lemma blank_snoc l u : blank l -> space_rune u -> blank (l ++ u).
Proof.
  intros (runes & Hall & ->) Hu. exists (runes ++ [u]). split.
  - apply Forall_app. split; [done | by repeat constructor].
  - rewrite concat_app. cbn. by rewrite app_nil_r.
Qed.

(** What [trimLeft] takes off is white space. *)
Lemma trimLeft_blank s : exists l, s = l ++ trimLeft s /\ blank l.
Proof.
  induction s as [s IH] using (induction_ltof1 _ (@length ascii)). unfold ltof in IH.
  destruct s as [|a s1]; [exists []; split; [done | apply blank_nil]|].
  cbn [trimLeft]. destruct (asciiSpace a) eqn:Ha.
  { destruct (IH s1) as (l & Hl & Hb); [cbn; lia|].
    exists ([a] ++ l). split; [cbn; by f_equal | by apply blank_cons]. }
  destruct s1 as [|b s2]; [exists []; split; [done | apply blank_nil]|].
  destruct (space2 a b) eqn:Hab.
  { destruct (IH s2) as (l & Hl & Hb); [cbn; lia|].
    exists ([a; b] ++ l). split; [cbn; by do 2 f_equal | by apply blank_cons]. }
  destruct s2 as [|c s3]; [exists []; split; [done | apply blank_nil]|].
  destruct (space3 a b c) eqn:Habc.
  { destruct (IH s3) as (l & Hl & Hb); [cbn; lia|].
    exists ([a; b; c] ++ l). split; [cbn; by do 3 f_equal | by apply blank_cons]. }
  exists []. split; [done | apply blank_nil].
Qed.

Lemma trimLeft_cons a s1 :
  trimLeft (a :: s1) =
  if asciiSpace a then trimLeft s1
  else match s1 with
       | [] => a :: s1
       | b :: s2 =>
           if space2 a b then trimLeft s2
           else match s2 with
                | [] => a :: s1
                | c :: s3 => if space3 a b c then trimLeft s3 else a :: s1
                end
       end.
Proof. by destruct s1 as [|b [|c s3]]. Qed.

(** [trimLeft] does not stop in front of white space. *)
Lemma trimLeft_space_rune u rest :
  space_rune u -> length (trimLeft (u ++ rest)) < length (u ++ rest).
Proof.
  destruct u as [|a [|b [|c [|]]]]; cbn [space_rune]; try done; intros Hu;
    cbn [app length]; rewrite trimLeft_cons; cbv beta iota.
  - rewrite Hu. pose proof (trimLeft_length rest). lia.
  - destruct (asciiSpace a).
    { pose proof (trimLeft_length (b :: rest)) as Hl. cbn [length] in Hl. lia. }
    rewrite Hu. pose proof (trimLeft_length rest). lia.
  - destruct (asciiSpace a).
    { pose proof (trimLeft_length (b :: c :: rest)) as Hl. cbn [length] in Hl. lia. }
    destruct (space2 a b).
    { pose proof (trimLeft_length (c :: rest)) as Hl. cbn [length] in Hl. lia. }
    rewrite Hu. pose proof (trimLeft_length rest). lia.
Qed.

Lemma trimLeft_no_space s u rest : space_rune u -> trimLeft s <> u ++ rest.
Proof.
  intros Hu Heq. pose proof (proj2 (trimLeft_spec s)) as Hid. rewrite Heq in Hid.
  pose proof (trimLeft_space_rune u rest Hu) as Hlt. rewrite Hid in Hlt. lia.
Qed.

Lemma trimLeft_rev_length s : length (trimLeft_rev s) <= length s.
Proof.
  destruct (trimLeft_rev_spec s) as [[p Hp] _].
  apply (f_equal length) in Hp. rewrite length_app in Hp. lia.
Qed.

(** What [trimLeft_rev] takes off is white space read backwards. *)
Lemma trimLeft_rev_blank s : exists l, s = l ++ trimLeft_rev s /\ blank (rev l).
Proof.
  induction s as [s IH] using (induction_ltof1 _ (@length ascii)). unfold ltof in IH.
  destruct s as [|c s1]; [exists []; split; [done | apply blank_nil]|].
  cbn [trimLeft_rev]. destruct (asciiSpace c) eqn:Hc.
  { destruct (IH s1) as (l & Hl & Hb); [cbn; lia|].
    exists (c :: l). split; [cbn; by f_equal|].
    change (rev (c :: l)) with (rev l ++ [c]). by apply blank_snoc. }
  destruct s1 as [|b s2]; [exists []; split; [done | apply blank_nil]|].
  destruct (space2 b c) eqn:Hbc.
  { destruct (IH s2) as (l & Hl & Hb); [cbn; lia|].
    exists (c :: b :: l). split; [cbn; by do 2 f_equal|].
    replace (rev (c :: b :: l)) with (rev l ++ [b; c]) by (cbn; by rewrite <- app_assoc).
    by apply blank_snoc. }
  destruct s2 as [|a s3]; [exists []; split; [done | apply blank_nil]|].
  destruct (space3 a b c) eqn:Habc.
  { destruct (IH s3) as (l & Hl & Hb); [cbn; lia|].
    exists (c :: b :: a :: l). split; [cbn; by do 3 f_equal|].
    replace (rev (c :: b :: a :: l)) with (rev l ++ [a; b; c])
      by (cbn; by rewrite <- !app_assoc).
    by apply blank_snoc. }
  exists []. split; [done | apply blank_nil].
Qed.

Lemma trimLeft_rev_cons c s1 :
  trimLeft_rev (c :: s1) =
  if asciiSpace c then trimLeft_rev s1
  else match s1 with
       | [] => c :: s1
       | b :: s2 =>
           if space2 b c then trimLeft_rev s2
           else match s2 with
                | [] => c :: s1
                | a :: s3 => if space3 a b c then trimLeft_rev s3 else c :: s1
                end
       end.
Proof. by destruct s1 as [|b [|a s3]]. Qed.

Lemma trimLeft_rev_space_rune u rest :
  space_rune u -> length (trimLeft_rev (rev u ++ rest)) < length (rev u ++ rest).
Proof.
  destruct u as [|a [|b [|c [|]]]]; cbn [space_rune]; try done; intros Hu;
    cbn [rev app length]; rewrite trimLeft_rev_cons; cbv beta iota.
  - rewrite Hu. pose proof (trimLeft_rev_length rest). lia.
  - destruct (asciiSpace b).
    { pose proof (trimLeft_rev_length (a :: rest)) as Hl. cbn [length] in Hl. lia. }
    rewrite Hu. pose proof (trimLeft_rev_length rest). lia.
  - destruct (asciiSpace c).
    { pose proof (trimLeft_rev_length (b :: a :: rest)) as Hl. cbn [length] in Hl. lia. }
    destruct (space2 b c).
    { pose proof (trimLeft_rev_length (a :: rest)) as Hl. cbn [length] in Hl. lia. }
    rewrite Hu. pose proof (trimLeft_rev_length rest). lia.
Qed.

Lemma trimLeft_rev_no_space s u rest : space_rune u -> trimLeft_rev s <> rev u ++ rest.
Proof.
  intros Hu Heq. pose proof (proj2 (trimLeft_rev_spec s)) as Hid. rewrite Heq in Hid.
  pose proof (trimLeft_rev_space_rune u rest Hu) as Hlt. rewrite Hid in Hlt. lia.
Qed.

(** [strings.TrimSpace] takes the white space off both ends, all of it
    and nothing else. *)
Lemma TrimSpace_trimmed s : trimmed s (TrimSpace s).
Proof.
  unfold TrimSpace, trimRight.
  destruct (trimLeft_blank s) as (l & Hl & Hbl).
  destruct (trimLeft_rev_blank (rev (trimLeft s))) as (l2 & Hl2 & Hbr).
  assert (Ht0 : trimLeft s = rev (trimLeft_rev (rev (trimLeft s))) ++ rev l2).
  { apply (f_equal (@rev ascii)) in Hl2. by rewrite rev_involutive, rev_app_distr in Hl2. }
  exists l, (rev l2). split; [by rewrite <- Ht0|]. split; [done|]. split; [done|]. split.
  - intros u rest Hu Heq. rewrite Heq, <- app_assoc in Ht0.
    exact (trimLeft_no_space s u _ Hu Ht0).
  - intros u rest Hu Heq. apply (f_equal (@rev ascii)) in Heq.
    rewrite rev_involutive, rev_app_distr in Heq.
    exact (trimLeft_rev_no_space _ u _ Hu Heq).
Qed.

End Trimmed.

Section Verbal.

Import TTS.

Lemma findVerbal_Some text content :
  findVerbal text = Some content ->
  exists pre post,
    text = pre ++ openTag ++ content ++ closeTag ++ post /\
    (forall pre' rest', text = pre' ++ openTag ++ rest' -> length pre <= length pre') /\
    (forall content' post',
       content ++ closeTag ++ post = content' ++ closeTag ++ post' ->
       length content <= length content').
Proof.
  unfold findVerbal.
  destruct (Cut text openTag) as [[pre rest]|] eqn:Hopen; [|done].
  destruct (Cut rest closeTag) as [[c post]|] eqn:Hclose; [|done].
  intros [= ->]. exists pre, post.
  pose proof (Cut_Some _ _ _ _ Hopen) as Htext.
  pose proof (Cut_Some _ _ _ _ Hclose) as Hrest.
  split; [by rewrite Htext, Hrest|]. split.
  - intros pre' rest' Heq. by eapply Cut_first.
  - intros content' post' Heq. rewrite <- Hrest in Heq. by eapply Cut_first.
Qed.

Lemma findVerbal_None text : findVerbal text = None -> ~ has_tag_pair text.
Proof.
  unfold findVerbal. intros Hnone (pre & content & post & Heq).
  destruct (Cut text openTag) as [[b rest]|] eqn:Hopen.
  - destruct (Cut rest closeTag) as [[c p]|] eqn:Hclose; [done|].
    apply Cut_None in Hclose. apply Hclose.
    pose proof (Cut_first _ _ _ _ Hopen pre _ Heq) as Hle.
    apply Cut_Some in Hopen.
    assert (rest = drop (length (b ++ openTag)) text) as ->.
    { rewrite Hopen at 1. by rewrite app_assoc, drop_app_length. }
    exists (drop (length (b ++ openTag)) (pre ++ openTag ++ content)), post.
    rewrite Heq.
    replace (pre ++ openTag ++ content ++ closeTag ++ post)
      with ((pre ++ openTag ++ content) ++ closeTag ++ post)
      by by rewrite <- !app_assoc.
    apply drop_app_le. rewrite !length_app. lia.
  - apply Cut_None in Hopen. apply Hopen. by exists pre, (content ++ closeTag ++ post).
Qed.

Lemma regexpSplit_6_nonempty s : 0 < length (regexpSplit 6 s).
Proof.
  destruct (regexpSplit_weave 5 s) as (seps & _ & Hlen & _). rewrite Hlen. lia.
Qed.

End Verbal.

(** C9, as amended. [ExtractVerbalResponse] is a function of its argument
    alone. If the text holds a [[VERBAL]] tag followed by a [[/VERBAL]]
    tag, the result is the text between the first opening tag and the
    first closing tag after it, without the white space at its ends.
    Otherwise, with the first paragraph being the text before the first
    two line feeds in a row (or the whole text): if it is shorter than
    1000 bytes the result is that paragraph without the white space at
    its ends; if not, the paragraph is cut at its first five sentence ends
    (a run of [.!?] and the white space after it) and the result is the
    first five pieces with ". " between them in place of the terminators,
    without the white space at its ends. *)
Theorem ExtractVerbalResponse_cases (text : gostring) :
  (has_tag_pair text ->
     exists pre content post,
       text = pre ++ TTS.openTag ++ content ++ TTS.closeTag ++ post /\
       (forall pre' rest',
          text = pre' ++ TTS.openTag ++ rest' -> length pre <= length pre') /\
       (forall content' post',
          content ++ TTS.closeTag ++ post = content' ++ TTS.closeTag ++ post' ->
          length content <= length content') /\
       trimmed content (TTS.ExtractVerbalResponse text)) /\
  (~ has_tag_pair text ->
     exists firstParagraph,
       first_paragraph text firstParagraph /\
       (length firstParagraph < 1000 ->
          trimmed firstParagraph (TTS.ExtractVerbalResponse text)) /\
       (1000 <= length firstParagraph ->
          exists pieces,
            sentence_split 6 firstParagraph pieces /\
            trimmed (with_full_stops (take 5 pieces)) (TTS.ExtractVerbalResponse text))).
Proof.
  unfold TTS.ExtractVerbalResponse. split.
  - intros Hpair. destruct (TTS.findVerbal text) as [content|] eqn:Hfind.
    + destruct (findVerbal_Some _ _ Hfind) as (pre & post & Heq & Hpre & Hcontent).
      exists pre, content, post.
      split; [done|]. split; [done|]. split; [done|]. apply TrimSpace_trimmed.
    + by apply findVerbal_None in Hfind.
  - intros Hnone. destruct (TTS.findVerbal text) as [content|] eqn:Hfind.
    { exfalso. apply Hnone.
      destruct (findVerbal_Some _ _ Hfind) as (pre & post & Heq & _).
      by exists pre, content, post. }
    rewrite Split_hd by done. cbn zeta.
    pose proof (Cut_first_paragraph text) as Hpara.
    set (para := match Cut text _ with Some (before, _) => before | None => text end) in *.
    exists para. split; [done|]. split; intros Hlen.
    + destruct (Nat.ltb_spec (length para) 1000); [|lia]. apply TrimSpace_trimmed.
    + destruct (Nat.ltb_spec (length para) 1000); [lia|].
      destruct (Nat.ltb_spec 0 (length (TTS.regexpSplit 6 para))) as [_|Hz];
        [|pose proof (regexpSplit_6_nonempty para); lia].
      exists (TTS.regexpSplit 6 para). split; [apply regexpSplit_sentences|].
      rewrite <- Join_with_full_stops.
      destruct (Nat.ltb_spec (length (TTS.regexpSplit 6 para)) 5).
      * rewrite !take_ge by lia. apply TrimSpace_trimmed.
      * apply TrimSpace_trimmed.
Qed.

Lemma ExtractVerbalResponse_cases_witness :
  let text := lit "Done. [[VERBAL]] The lights are on. [[/VERBAL]] (3 devices)" in
  exists pre content post,
    text = pre ++ TTS.openTag ++ content ++ TTS.closeTag ++ post /\
    (forall pre' rest',
       text = pre' ++ TTS.openTag ++ rest' -> length pre <= length pre') /\
    (forall content' post',
       content ++ TTS.closeTag ++ post = content' ++ TTS.closeTag ++ post' ->
       length content <= length content') /\
    trimmed content (TTS.ExtractVerbalResponse text).
Proof.
  intros text. apply (proj1 (ExtractVerbalResponse_cases text)).
  by exists (lit "Done. "), (lit " The lights are on. "), (lit " (3 devices)").
Defined.

(** A paragraph of 1050 bytes whose sentences end in "!" and two spaces:
    what comes back is no part of the paragraph, the terminators have
    become ". " and the fifth sentence has lost its "!". And a text whose
    blank line is written with carriage returns has no paragraph break:
    the second paragraph comes back as well. *)
Lemma ExtractVerbalResponse_cases_counterexample :
  let text := concat (repeat (lit "Ninety bytes!  ") 70) in
  let cr := ascii_of_N 13 in
  let crlf := lit "One." ++ [cr; TTS.newline; cr; TTS.newline] ++ lit "Two." in
  TTS.findVerbal text = None /\
  Cut text [TTS.newline; TTS.newline] = None /\
  length text = 1050 /\
  TTS.ExtractVerbalResponse text
  = lit "Ninety bytes. Ninety bytes. Ninety bytes. Ninety bytes. Ninety bytes" /\
  Contains text (TTS.ExtractVerbalResponse text) = false /\
  TTS.findVerbal crlf = None /\
  TTS.ExtractVerbalResponse crlf = crlf.
Proof. by vm_compute. Qed.

(** The three cases on concrete texts. *)
Example ExtractVerbalResponse_tagged :
  TTS.ExtractVerbalResponse
    (lit "Done. [[VERBAL]] The lights are on. [[/VERBAL]] (3 devices)")
  = lit "The lights are on.".
Proof. vm_compute. reflexivity. Qed.

Example ExtractVerbalResponse_short :
  TTS.ExtractVerbalResponse
    (lit " All set. " ++ [TTS.newline; TTS.newline] ++ lit "Details: none.")
  = lit "All set.".
Proof. vm_compute. reflexivity. Qed.

Example ExtractVerbalResponse_long :
  TTS.ExtractVerbalResponse (concat (repeat (lit "Ninety bytes!  ") 70))
  = lit "Ninety bytes. Ninety bytes. Ninety bytes. Ninety bytes. Ninety bytes".
Proof. vm_compute. reflexivity. Qed.

(* ===================================================================== *)
(** * Further properties *)
(* ===================================================================== *)

(* --------------------------------------------------------------------- *)
(** ** The accumulator: window sizes and cancellation *)
(* --------------------------------------------------------------------- *)

Section Windows.

Lemma loop_step_window_bounds cfg l c :
  (audioBuffer l = [] \/ (GoInt.len (audioBuffer l) < bufferSize cfg)%Z) ->
  Forall (fun w => (Z.min (bufferSize cfg) (minBufferSize cfg) <= GoInt.len w)%Z)
         (dispatched l) ->
  let l' := loop_step cfg l c in
  (audioBuffer l' = [] \/ (GoInt.len (audioBuffer l') < bufferSize cfg)%Z) /\
  Forall (fun w => (Z.min (bufferSize cfg) (minBufferSize cfg) <= GoInt.len w)%Z)
         (dispatched l').
Proof.
  intros Hopen Hall. unfold loop_step. destruct (exited l); [done|].
  destruct c as [|data|]; cbn [processAudio_body].
  - done.
  - destruct (Z.leb_spec (bufferSize cfg) (GoInt.len (audioBuffer l ++ data))); cbn.
    + split; [by left|]. apply Forall_app. split; [done|].
      constructor; [lia | constructor].
    + split; [by right|]. by rewrite app_nil_r.
  - destruct (Z.leb_spec (minBufferSize cfg) (GoInt.len (audioBuffer l))); cbn.
    + split; [by left|]. apply Forall_app. split; [done|].
      constructor; [lia | constructor].
    + split; [done|]. by rewrite app_nil_r.
Qed.

End Windows.

(** Whatever the loop has consumed, the open window is empty or holds fewer
    than [bufferSize] samples, and every window handed to a worker holds at
    least the smaller of the two thresholds: at a sample rate from 2 up, no
    empty window is transcribed. *)
Theorem processAudio_window_bounds (cfg : Config) (cs : list selectCase) :
  let l := processAudio cfg cs in
  (audioBuffer l = [] \/ (GoInt.len (audioBuffer l) < bufferSize cfg)%Z) /\
  Forall (fun w => (Z.min (bufferSize cfg) (minBufferSize cfg) <= GoInt.len w)%Z)
         (dispatched l).
Proof.
  induction cs as [|c cs IH] using rev_ind.
  - cbn. split; [by left | constructor].
  - cbn zeta in *. rewrite processAudio_snoc.
    destruct IH as [Hopen Hall]. by apply loop_step_window_bounds.
Qed.

(** When the context is done the loop returns at once: the open window is
    dropped, not flushed, however full it is, and nothing that arrives
    later is consumed. *)
Theorem processAudio_cancel_discards (cfg : Config) (cs rest : list selectCase) :
  let before := processAudio cfg cs in
  let after := processAudio cfg (cs ++ CtxDone :: rest) in
  exited after = true /\
  dispatched after = dispatched before /\
  audioBuffer after = audioBuffer before.
Proof.
  intros before after. subst after.
  rewrite processAudio_app. fold before.
  unfold processAudio_from. cbn [foldl].
  change (foldl (loop_step cfg) ?x rest) with (processAudio_from cfg x rest).
  rewrite processAudio_from_exited.
  - unfold loop_step. by destruct (exited before) eqn:He.
  - unfold loop_step. by destruct (exited before) eqn:He.
Qed.

(* --------------------------------------------------------------------- *)
(** ** What each operation changes *)
(* --------------------------------------------------------------------- *)

Section Shapes.

Lemma ProcessAudio_shape s d :
  fst (ProcessAudio s d) = s \/
  (chan_has_room (audioQueue s) = true /\ running s = true /\
   chan_closed (audioQueue s) = false /\ snd (ProcessAudio s d) = Returns None /\
   fst (ProcessAudio s d) = set_audioQueue (chan_push (audioQueue s) d) s).
Proof.
  unfold ProcessAudio. destruct (running s); cbn [negb]; [|by left].
  destruct (chan_closed (audioQueue s)); [by left|].
  destruct (chan_has_room (audioQueue s)); [by right | by left].
Qed.

Lemma transcribeAudio_shape mapToLower whisper s d :
  fst (transcribeAudio mapToLower whisper s d) = s \/
  (chan_has_room (results s) = true /\
   exists r, fst (transcribeAudio mapToLower whisper s d)
             = set_results (chan_push (results s) r) s).
Proof.
  unfold transcribeAudio. destruct (model s) as [m|]; [|by left].
  destruct (Model_Transcribe whisper m d); [|by left].
  destruct (chan_closed (results s)); [by left|].
  destruct (chan_has_room (results s)); [right; eauto | by left].
Qed.

(** A receive takes the head of the queue or nothing. *)
Lemma chan_recv_shape {A} (zero : A) (c c' : chan A) v :
  chan_recv zero c = Some (v, c') ->
  chan_cap c' = chan_cap c /\ chan_closed c' = chan_closed c /\
  (chan_buf c = v :: chan_buf c' \/ (chan_buf c = [] /\ c' = c /\ v = zero /\ chan_closed c = true)).
Proof.
  unfold chan_recv. destruct (chan_buf c) as [|x rest] eqn:Hb.
  - destruct (chan_closed c) eqn:Hc; [|done]. intros [= <- <-]. repeat split; eauto.
  - intros [= <- <-]. cbn. repeat split; eauto.
Qed.

Lemma chan_ok_push {A} cap (c : chan A) v :
  chan_ok cap c -> chan_has_room c = true -> chan_ok cap (chan_push c v).
Proof.
  unfold chan_ok, chan_has_room. intros [Hle Hcap] Hroom%Nat.ltb_lt. cbn.
  rewrite length_app. cbn. lia.
Qed.

Lemma chan_ok_recv {A} cap (zero : A) (c c' : chan A) v :
  chan_ok cap c -> chan_recv zero c = Some (v, c') -> chan_ok cap c'.
Proof.
  unfold chan_ok. intros [Hle Hcap] (Hc & _ & [Hb | (Hb & -> & _)])%chan_recv_shape.
  - rewrite Hc. rewrite Hb in Hle. cbn in Hle. lia.
  - done.
Qed.

Lemma Close_queues s :
  chan_buf (audioQueue (fst (Close s))) = chan_buf (audioQueue s) /\
  chan_cap (audioQueue (fst (Close s))) = chan_cap (audioQueue s) /\
  chan_buf (results (fst (Close s))) = chan_buf (results s) /\
  chan_cap (results (fst (Close s))) = chan_cap (results s).
Proof.
  unfold Close, chan_close.
  destruct (chan_closed (audioQueue s)); [done|].
  by destruct (chan_closed (results s)).
Qed.

Lemma Close_lifecycle s :
  running (fst (Close s)) = false /\
  cancelFunc (fst (Close s)) = cancelFunc s /\
  contexts (fst (Close s))
  = match cancelFunc s with Some i => <[i := true]> (contexts s) | None => contexts s end.
Proof.
  unfold Close, chan_close.
  destruct (chan_closed (audioQueue s)); [done|].
  by destruct (chan_closed (results s)).
Qed.

Lemma handleWebSocket_teardown_core s conn :
  same_core s (handleWebSocket_teardown s conn).
Proof. by repeat split. Qed.

Lemma handleWebSocket_start_core s conn :
  same_core s (fst (handleWebSocket_start s conn)).
Proof.
  unfold handleWebSocket_start. by destruct (WriteJSON _ _) as [c []].
Qed.

End Shapes.

(* --------------------------------------------------------------------- *)
(** ** Invariants of the service *)
(* --------------------------------------------------------------------- *)

Section Invariants.

Variable mapToLower : gostring -> gostring.
Variable whisper : list float32 -> whisperRun.
Variable unmarshal : gostring -> option (list float32).
Variable decode : gostring -> option (list float32).

Local Abbreviation do_step := (do_step mapToLower whisper unmarshal decode).
Local Abbreviation do_steps := (do_steps mapToLower whisper unmarshal decode).

Lemma do_steps_snoc s sts st : do_steps s (sts ++ [st]) = do_step (do_steps s sts) st.
Proof. unfold do_steps, Whisper.do_steps. by rewrite foldl_app. Qed.

Lemma queues_ok_same_core s s' : same_core s s' -> queues_ok s -> queues_ok s'.
Proof. intros (_&_&Hq&Hr&_). unfold queues_ok. by rewrite Hq, Hr. Qed.

Lemma queues_ok_ProcessAudio s d : queues_ok s -> queues_ok (fst (ProcessAudio s d)).
Proof.
  intros [Hq Hr]. destruct (ProcessAudio_shape s d) as [-> | (Hroom & _ & _ & _ & ->)]; [done|].
  split; [by apply chan_ok_push | done].
Qed.

Lemma queues_ok_transcribeAudio s d :
  queues_ok s -> queues_ok (fst (transcribeAudio mapToLower whisper s d)).
Proof.
  intros [Hq Hr].
  destruct (transcribeAudio_shape mapToLower whisper s d) as [-> | (Hroom & r & ->)]; [done|].
  split; [done | by apply chan_ok_push].
Qed.

Lemma queues_ok_Close s : queues_ok s -> queues_ok (fst (Close s)).
Proof.
  destruct (Close_queues s) as (Hb & Hc & Hb' & Hc').
  unfold queues_ok, chan_ok. by rewrite Hb, Hc, Hb', Hc'.
Qed.

Lemma queues_ok_recv s result r :
  queues_ok s -> chan_recv zeroResult (results s) = Some (result, r) ->
  queues_ok (set_results r s).
Proof. intros [Hq Hr] Hrecv. split; [done | by eapply chan_ok_recv]. Qed.

Lemma do_step_queues_ok s st : queues_ok s -> queues_ok (do_step s st).
Proof.
  intros Hok. destruct st as [c| |conn|conn r|body]; cbn [Whisper.do_step].
  - destruct c; cbn [exec].
    + unfold Initialize. by destruct (running s).
    + by apply queues_ok_ProcessAudio.
    + by apply queues_ok_transcribeAudio.
    + done.
    + done.
    + by eapply queues_ok_same_core; [apply BroadcastResult_same_core|].
    + by apply queues_ok_Close.
  - unfold broadcastResults_body.
    destruct (chan_recv zeroResult (results s)) as [[result r]|] eqn:Hrecv; [|done].
    cbn. eapply queues_ok_same_core; [apply BroadcastResult_same_core|].
    by eapply queues_ok_recv.
  - by eapply queues_ok_same_core; [apply handleWebSocket_start_core|].
  - unfold handleWebSocket_read.
    destruct r as [|message]; [done|].
    destruct (unmarshal message) as [d|]; [|done].
    pose proof (queues_ok_ProcessAudio s d Hok) as Hpa.
    destruct (ProcessAudio s d) as [s' [o|p|]]; done.
  - unfold TranscribeHandler. rewrite bool_decide_eq_true_2 by done. cbn [negb].
    destruct (decode body) as [d|]; [|done].
    pose proof (queues_ok_ProcessAudio s d Hok) as Hpa.
    destruct (ProcessAudio s d) as [s' [[e|]|p|]]; cbn in *; try done.
    destruct (chan_recv zeroResult (results s')) as [[result r]|] eqn:Hrecv; cbn; [|done].
    by eapply queues_ok_recv.
Qed.

Lemma same_lifecycle_core s s' : same_core s s' -> same_lifecycle s s'.
Proof. intros (_&_&_&_&?&?&?). by repeat split. Qed.

Lemma same_lifecycle_ProcessAudio s d : same_lifecycle s (fst (ProcessAudio s d)).
Proof. by destruct (ProcessAudio_shape s d) as [-> | (_ & _ & _ & _ & ->)]. Qed.

Lemma same_lifecycle_transcribeAudio s d :
  same_lifecycle s (fst (transcribeAudio mapToLower whisper s d)).
Proof.
  by destruct (transcribeAudio_shape mapToLower whisper s d) as [-> | (_ & r & ->)].
Qed.

(** Only [Initialize] and [Close] touch the lifecycle fields. *)
Lemma do_step_same_lifecycle s st :
  st <> StepCall CallInitialize -> st <> StepCall CallClose ->
  same_lifecycle s (do_step s st).
Proof.
  intros Hi Hc. destruct st as [c| |conn|conn r|body]; cbn [Whisper.do_step].
  - destruct c; cbn [exec]; try done.
    + apply same_lifecycle_ProcessAudio.
    + apply same_lifecycle_transcribeAudio.
    + apply same_lifecycle_core, BroadcastResult_same_core.
  - unfold broadcastResults_body.
    destruct (chan_recv zeroResult (results s)) as [[result r]|]; [|done].
    cbn. by destruct (BroadcastResult_same_core (set_results r s) result) as (_&_&_&_&?&?&?).
  - apply same_lifecycle_core, handleWebSocket_start_core.
  - unfold handleWebSocket_read.
    destruct r as [|message]; [done|].
    destruct (unmarshal message) as [d|]; [|done].
    pose proof (same_lifecycle_ProcessAudio s d) as Hpa.
    destruct (ProcessAudio s d) as [s' [o|p|]]; done.
  - unfold TranscribeHandler. rewrite bool_decide_eq_true_2 by done. cbn [negb].
    destruct (decode body) as [d|]; [|done].
    pose proof (same_lifecycle_ProcessAudio s d) as Hpa.
    destruct (ProcessAudio s d) as [s' [[e|]|p|]]; cbn in *; try done.
    by destruct (chan_recv zeroResult (results s')) as [[result r]|].
Qed.

Lemma live_context_same s s' : same_lifecycle s s' -> live_context s -> live_context s'.
Proof. intros (Hr & Hc & Hx). unfold live_context. by rewrite Hr, Hc, Hx. Qed.

Lemma live_context_Initialize s : live_context s -> live_context (Initialize s).
Proof.
  unfold Initialize. destruct (running s) eqn:Hr; [done|].
  intros [Hlive Hrun]. split; cbn.
  - intros i Hi. apply lookup_app_Some in Hi as [Hi | [Hge Hi]].
    + destruct (Hlive i Hi). congruence.
    + apply list_lookup_singleton_Some in Hi as [Hi _].
      split; [f_equal; lia | done].
  - intros _. exists (length (contexts s)). split; [done|].
    by rewrite lookup_app_r, Nat.sub_diag.
Qed.

Lemma live_context_Close s : live_context s -> live_context (fst (Close s)).
Proof.
  intros [Hlive Hrun]. destruct (Close_lifecycle s) as (Hr & Hc & Hx).
  split; [|by rewrite Hr]. rewrite Hr, Hc, Hx. intros j Hj. exfalso.
  destruct (cancelFunc s) as [i|] eqn:Hcf.
  - destruct (decide (j = i)) as [->|Hne].
    + destruct (decide (i < length (contexts s))).
      * rewrite list_lookup_insert_eq in Hj by done. discriminate.
      * rewrite list_insert_ge in Hj by lia.
        apply lookup_lt_Some in Hj. lia.
    + rewrite list_lookup_insert_ne in Hj by done.
      destruct (Hlive j Hj). congruence.
  - destruct (Hlive j Hj). congruence.
Qed.

Lemma do_step_live_context s st : live_context s -> live_context (do_step s st).
Proof.
  intros Hl.
  destruct st as [[]| | | |];
    first [ by apply live_context_Initialize
          | by apply live_context_Close
          | by eapply live_context_same; [apply do_step_same_lifecycle|] ].
Qed.

End Invariants.

(** Whatever happens to a service (method calls, broadcaster and handler
    turns, HTTP transcribe requests, in any order) its ingestion queue
    never holds more than 1000 chunks and its results channel never more
    than 100 results. *)
Theorem queues_bounded (mapToLower : gostring -> gostring)
    (whisper : list float32 -> whisperRun)
    (unmarshal decode : gostring -> option (list float32))
    (cfg : option Config) (socks : gmap nat Conn) (sts : list step) :
  let s := do_steps mapToLower whisper unmarshal decode (NewWhisperService cfg socks) sts in
  length (chan_buf (audioQueue s)) <= 1000 /\ chan_cap (audioQueue s) = 1000 /\
  length (chan_buf (results s)) <= 100 /\ chan_cap (results s) = 100.
Proof.
  cbn zeta.
  assert (queues_ok (do_steps mapToLower whisper unmarshal decode
                       (NewWhisperService cfg socks) sts)) as [[? ?] [? ?]].
  { induction sts as [|st sts IH] using rev_ind.
    - repeat split; cbn; lia.
    - rewrite do_steps_snoc. by apply do_step_queues_ok. }
  repeat split; lia.
Qed.

(** At most one context is live at any time: the one [cancelFunc] cancels.
    One is live exactly while the service is running, so a service never
    has two accumulator loops or two broadcaster loops that have not been
    told to stop, and none once [Close] has been called. *)
Theorem one_live_context (mapToLower : gostring -> gostring)
    (whisper : list float32 -> whisperRun)
    (unmarshal decode : gostring -> option (list float32))
    (cfg : option Config) (socks : gmap nat Conn) (sts : list step) :
  let s := do_steps mapToLower whisper unmarshal decode (NewWhisperService cfg socks) sts in
  (forall i j, contexts s !! i = Some false -> contexts s !! j = Some false -> i = j) /\
  (forall i, contexts s !! i = Some false -> cancelFunc s = Some i) /\
  (running s = true <-> exists i, contexts s !! i = Some false).
Proof.
  cbn zeta.
  assert (live_context (do_steps mapToLower whisper unmarshal decode
                          (NewWhisperService cfg socks) sts)) as [Hlive Hrun].
  { induction sts as [|st sts IH] using rev_ind.
    - split; [intros i Hi; cbn in Hi; by rewrite lookup_nil in Hi | done].
    - rewrite do_steps_snoc. by apply do_step_live_context. }
  split; [|split; [|split]].
  - intros i j Hi Hj. destruct (Hlive i Hi), (Hlive j Hj). congruence.
  - intros i Hi. by destruct (Hlive i Hi).
  - intros Hr. destruct (Hrun Hr) as (i & _ & Hi). eauto.
  - intros (i & Hi). by destruct (Hlive i Hi).
Qed.

Section Registry.

Lemma Conn_Close_idemp c : Conn_Close (Conn_Close c) = Conn_Close c.
Proof. done. Qed.

Lemma close_all_lookup (order : list nat) : forall (m : gmap nat Conn) c,
  foldl (fun m conn => <[conn := Conn_Close (m !!! conn)]> m) m order !!! c
  = if decide (c ∈ order) then Conn_Close (m !!! c) else m !!! c.
Proof.
  induction order as [|a order IH]; intros m c; cbn [foldl].
  - rewrite decide_False; [done | by intros ?%elem_of_nil].
  - rewrite IH. destruct (decide (c = a)) as [->|Hne].
    + rewrite lookup_total_insert_eq, Conn_Close_idemp.
      rewrite (decide_True (P := a ∈ a :: order)) by by left.
      by destruct (decide (a ∈ order)).
    + rewrite lookup_total_insert_ne by done.
      destruct (decide (c ∈ order)).
      * by rewrite (decide_True (P := c ∈ a :: order)) by by right.
      * rewrite (decide_False (P := c ∈ a :: order)); [done|].
        by intros [?|?]%elem_of_cons.
Qed.

Lemma Close_registry s :
  connections (fst (Close s)) = ∅ /\
  sockets (fst (Close s))
  = foldl (fun m conn => <[conn := Conn_Close (m !!! conn)]> m)
          (sockets s) (elements (dom (connections s))).
Proof.
  unfold Close, chan_close.
  destruct (chan_closed (audioQueue s)); [done|].
  by destruct (chan_closed (results s)).
Qed.

End Registry.

(** [Close] closes every registered connection and empties the registry,
    also when it goes on to panic; what a connection has been sent stays as
    it was, and a connection that is not registered is not touched. *)
Theorem Close_closes_connections (s : WhisperService) :
  let s' := fst (Close s) in
  connections s' = ∅ /\
  (forall conn, conn ∈ dom (connections s) ->
     conn_closed (sockets s' !!! conn) = true /\
     conn_written (sockets s' !!! conn) = conn_written (sockets s !!! conn)) /\
  (forall conn, conn ∉ dom (connections s) -> sockets s' !!! conn = sockets s !!! conn).
Proof.
  cbn zeta. destruct (Close_registry s) as [Hc Hs]. rewrite Hc, Hs.
  split; [done|]. split.
  - intros conn Hin. rewrite close_all_lookup.
    by rewrite decide_True by by apply elem_of_elements.
  - intros conn Hout. rewrite close_all_lookup.
    by rewrite decide_False by by rewrite elem_of_elements.
Qed.

(** A queue that takes chunks until it is full. *)
Lemma ProcessAudio_foldl (s : WhisperService) (chunks : list (list float32)) :
  running s = true -> chan_closed (audioQueue s) = false ->
  length (chan_buf (audioQueue s)) <= chan_cap (audioQueue s) ->
  let s' := foldl (fun s d => fst (ProcessAudio s d)) s chunks in
  chan_buf (audioQueue s')
  = take (chan_cap (audioQueue s)) (chan_buf (audioQueue s) ++ chunks) /\
  s' = set_audioQueue (audioQueue s') s /\
  chan_cap (audioQueue s') = chan_cap (audioQueue s) /\
  chan_closed (audioQueue s') = false.
Proof.
  revert s. induction chunks as [|d chunks IH]; intros s Hrun Hopen Hle; cbn zeta.
  - cbn [foldl]. rewrite app_nil_r, take_ge by done. by destruct s.
  - cbn [foldl].
    destruct (Nat.ltb_spec (length (chan_buf (audioQueue s))) (chan_cap (audioQueue s)))
      as [Hroom | Hfull].
    + assert (fst (ProcessAudio s d) = set_audioQueue (chan_push (audioQueue s) d) s) as ->.
      { unfold ProcessAudio, chan_has_room. rewrite Hrun, Hopen. cbn [negb].
        by rewrite (proj2 (Nat.ltb_lt _ _) Hroom). }
      destruct (IH (set_audioQueue (chan_push (audioQueue s) d) s)) as (Hb & Hs & Hc & Hcl);
        [done | done | cbn; rewrite length_app; cbn; lia |].
      set (s' := foldl _ _ chunks) in *. cbn in Hb, Hc.
      split; [by rewrite Hb, <- app_assoc|]. split; [|done].
      transitivity (set_audioQueue (audioQueue s')
                      (set_audioQueue (chan_push (audioQueue s) d) s)); done.
    + assert (fst (ProcessAudio s d) = s) as ->.
      { unfold ProcessAudio, chan_has_room. rewrite Hrun, Hopen. cbn [negb].
        by rewrite (proj2 (Nat.ltb_ge _ _) Hfull). }
      destruct (IH s Hrun Hopen Hle) as (Hb & Hs & Hc & Hcl).
      set (s' := foldl _ _ chunks) in *.
      split; [|done]. rewrite Hb.
      assert (length (chan_buf (audioQueue s)) = chan_cap (audioQueue s)) as Heq by lia.
      rewrite <- Heq at 1 2. by rewrite !take_app_length.
Qed.

(** A burst of chunks on a running service with nothing draining the
    queue: the queue takes them in order until it is full and drops the
    rest, so it ends as the first [cap] elements of what it held followed
    by the burst; nothing else in the service changes. *)
Theorem ProcessAudio_burst (s : WhisperService) (chunks : list (list float32)) :
  running s = true -> chan_closed (audioQueue s) = false ->
  length (chan_buf (audioQueue s)) <= chan_cap (audioQueue s) ->
  let s' := foldl (fun s d => fst (ProcessAudio s d)) s chunks in
  chan_buf (audioQueue s')
  = take (chan_cap (audioQueue s)) (chan_buf (audioQueue s) ++ chunks) /\
  s' = set_audioQueue (audioQueue s') s /\
  chan_cap (audioQueue s') = chan_cap (audioQueue s) /\
  chan_closed (audioQueue s') = false.
Proof. apply ProcessAudio_foldl. Qed.

Lemma ProcessAudio_burst_witness :
  let s := set_audioQueue (mkChan [[1%Z]] 3 false) (Initialize (NewWhisperService None ∅)) in
  let chunks := [[2%Z]; [3%Z]; [4%Z]; [5%Z]] in
  let s' := foldl (fun s d => fst (ProcessAudio s d)) s chunks in
  chan_buf (audioQueue s') = take 3 ([[1%Z]] ++ chunks) /\
  s' = set_audioQueue (audioQueue s') s /\
  chan_cap (audioQueue s') = 3 /\
  chan_closed (audioQueue s') = false.
Proof.
  intros s chunks.
  apply (ProcessAudio_burst s chunks); [reflexivity | reflexivity | cbn; lia].
Defined.

(* --------------------------------------------------------------------- *)
(** ** The broadcaster loop *)
(* --------------------------------------------------------------------- *)

Section BroadcasterLoop.

Lemma BroadcastResult_healthy s result conn :
  conn ∈ dom (connections s) ->
  write_fails (sockets s !!! conn) = false ->
  let s' := BroadcastResult s result in
  conn ∈ dom (connections s') /\
  write_fails (sockets s' !!! conn) = false /\
  conn_written (sockets s' !!! conn)
  = conn_written (sockets s !!! conn) ++ [MsgResult result] /\
  results s' = results s.
Proof.
  intros Hin Hok. cbn zeta.
  destruct (BroadcastResult_same_core s result) as (_&_&_&Hres&_).
  rewrite BroadcastResult_sockets, decide_True by done.
  unfold after_delivery. rewrite Hok. cbn.
  repeat split; try done.
  apply elem_of_dom. rewrite BroadcastResult_connections, Hok. by apply elem_of_dom.
Qed.

End BroadcasterLoop.

(** The broadcaster delivers in queue order: a registered connection whose
    writes succeed has, after the loop has taken [n] of the queued
    results, been sent exactly the first [n] of them, in the order they
    were queued, after what it had been sent before; it is still
    registered and the rest of the queue is still waiting. *)
Theorem broadcastResults_fifo (s : WhisperService) (conn n : nat) :
  conn ∈ dom (connections s) ->
  snd (WriteJSON (sockets s !!! conn) (MsgConfig (config s))) = false ->
  n <= length (chan_buf (results s)) ->
  let s' := fst (broadcastResults s (repeat RecvResult n)) in
  snd (broadcastResults s (repeat RecvResult n)) = false /\
  (conn ∈ dom (connections s')) /\
  conn_written (sockets s' !!! conn)
  = conn_written (sockets s !!! conn) ++ map MsgResult (take n (chan_buf (results s))) /\
  chan_buf (results s') = drop n (chan_buf (results s)).
Proof.
  rewrite WriteJSON_fails.
  revert s. induction n as [|n IH]; intros s Hin Hok Hn; cbn zeta.
  - cbn. by rewrite app_nil_r.
  - cbn [repeat broadcastResults broadcastResults_body].
    unfold chan_recv. destruct (chan_buf (results s)) as [|v rest] eqn:Hbuf;
      [cbn in Hn; lia|].
    set (s1 := set_results (mkChan rest (chan_cap (results s)) (chan_closed (results s))) s).
    destruct (BroadcastResult_healthy s1 v conn Hin Hok) as (Hin' & Hok' & Hw & Hres).
    cbn zeta in *. cbn in Hn.
    destruct (IH (BroadcastResult s1 v) Hin' Hok') as (Hex & Hin'' & Hw' & Hb').
    { rewrite Hres. cbn. lia. }
    cbn zeta in *. rewrite Hres in Hw', Hb'. cbn in Hw', Hb'.
    split; [done|]. split; [done|]. split; [|done].
    rewrite Hw', Hw. cbn. by rewrite <- app_assoc.
Qed.

Lemma broadcastResults_fifo_witness :
  let r1 := mkResult (lit "one ") true false zeroFloat64 in
  let r2 := mkResult (lit "hey alfred ") true true zeroFloat64 in
  let r3 := mkResult (lit "three ") true false zeroFloat64 in
  let s := set_results (mkChan [r1; r2; r3] 100 false)
             (AddWebSocket (Initialize (NewWhisperService None ∅)) 7) in
  let s' := fst (broadcastResults s (repeat RecvResult 2)) in
  snd (broadcastResults s (repeat RecvResult 2)) = false /\
  (7 ∈ dom (connections s')) /\
  conn_written (sockets s' !!! 7)
  = conn_written (sockets s !!! 7) ++ map MsgResult (take 2 [r1; r2; r3]) /\
  chan_buf (results s') = drop 2 [r1; r2; r3].
Proof.
  intros r1 r2 r3 s.
  apply (broadcastResults_fifo s 7 2); [|reflexivity|cbn; lia].
  subst s. cbn. rewrite dom_insert. apply elem_of_union_l. by apply elem_of_singleton.
Defined.

(** On a service whose results channel is closed and drained, every turn
    of the broadcaster that takes the receive case sends the zero result
    (empty text, [IsFinal = false]) to each registered connection whose
    writes succeed, and the channel stays as it is, so the next turn does
    the same. *)
Theorem broadcastResults_closed_channel (s : WhisperService) (conn n : nat) :
  chan_closed (results s) = true -> chan_buf (results s) = [] ->
  conn ∈ dom (connections s) ->
  snd (WriteJSON (sockets s !!! conn) (MsgConfig (config s))) = false ->
  let s' := fst (broadcastResults s (repeat RecvResult n)) in
  conn_written (sockets s' !!! conn)
  = conn_written (sockets s !!! conn) ++ repeat (MsgResult zeroResult) n /\
  IsFinal zeroResult = false /\
  results s' = results s /\ (conn ∈ dom (connections s')).
Proof.
  rewrite WriteJSON_fails.
  revert s. induction n as [|n IH]; intros s Hcl Hbuf Hin Hok; cbn zeta.
  - cbn. by rewrite app_nil_r.
  - cbn [repeat broadcastResults broadcastResults_body].
    unfold chan_recv. rewrite Hbuf, Hcl.
    assert (set_results (results s) s = s) as -> by by destruct s.
    destruct (BroadcastResult_healthy s zeroResult conn Hin Hok) as (Hin' & Hok' & Hw & Hres).
    cbn zeta in *.
    destruct (IH (BroadcastResult s zeroResult)) as (Hw' & _ & Hres' & Hin'');
      [by rewrite Hres | by rewrite Hres | done | done |].
    cbn zeta in *. split; [|split; [done|split; [congruence | done]]].
    rewrite Hw', Hw. cbn. by rewrite <- app_assoc.
Qed.

(** A service that was closed and initialized again, with a client that
    connected afterwards. *)
Lemma broadcastResults_closed_channel_witness :
  let s := AddWebSocket (Initialize (fst (Close (Initialize (NewWhisperService None ∅))))) 7 in
  let s' := fst (broadcastResults s (repeat RecvResult 3)) in
  conn_written (sockets s' !!! 7)
  = conn_written (sockets s !!! 7) ++ repeat (MsgResult zeroResult) 3 /\
  IsFinal zeroResult = false /\
  results s' = results s /\ (7 ∈ dom (connections s')).
Proof.
  intros s.
  apply (broadcastResults_closed_channel s 7 3); [reflexivity | reflexivity | | reflexivity].
  subst s. cbn. rewrite dom_insert. apply elem_of_union_l. by apply elem_of_singleton.
Defined.

(* --------------------------------------------------------------------- *)
(** ** The text of a window *)
(* --------------------------------------------------------------------- *)

Section Segments.

Lemma foldl_segments (texts : list gostring) : forall out,
  foldl (fun out t => out ++ (t ++ lit " ")) out texts
  = out ++ concat (map (fun t => t ++ lit " ") texts).
Proof.
  induction texts as [|t texts IH]; intros out; cbn [foldl map concat].
  - by rewrite app_nil_r.
  - by rewrite IH, <- app_assoc.
Qed.

End Segments.

(** [Model.Transcribe] on a loaded model returns the texts of the
    segments in order, each followed by one space. A window in which the
    engine finds no segment is no error: the worker emits a result for it,
    with empty [Text] and [IsWakeWord = false]. *)
Theorem Model_Transcribe_segments (mapToLower : gostring -> gostring)
    (whisper : list float32 -> whisperRun) (s : WhisperService) (m : Model)
    (audioData : list float32) (texts : list gostring) :
  model s = Some m -> m_loaded m = true ->
  whisper audioData = Segments texts ->
  Model_Transcribe whisper m audioData
  = inl (concat (map (fun t => t ++ lit " ") texts)) /\
  (texts = [] -> chan_closed (results s) = false -> chan_has_room (results s) = true ->
   transcribeAudio mapToLower whisper s audioData
   = (set_results (chan_push (results s) (mkResult [] true false zeroFloat64)) s,
      Returns (Emitted (mkResult [] true false zeroFloat64)))).
Proof.
  intros Hm Hl Hw.
  assert (Model_Transcribe whisper m audioData
          = inl (concat (map (fun t => t ++ lit " ") texts))) as Ht.
  { unfold Model_Transcribe. rewrite Hl, Hw. cbn [negb]. by rewrite foldl_segments. }
  split; [done|]. intros -> Hc Hroom.
  unfold transcribeAudio. by rewrite Hm, Ht, Hc, Hroom.
Qed.

Lemma Model_Transcribe_segments_witness :
  let whisper := fun _ : list float32 => Segments [] in
  let s := Initialize (NewWhisperService None ∅) in
  Model_Transcribe whisper (mkModel DefaultConfig true) [1%Z]
  = inl (concat (map (fun t => t ++ lit " ") [])) /\
  (@nil gostring = [] ->
   chan_closed (results s) = false -> chan_has_room (results s) = true ->
   transcribeAudio id whisper s [1%Z]
   = (set_results (chan_push (results s) (mkResult [] true false zeroFloat64)) s,
      Returns (Emitted (mkResult [] true false zeroFloat64)))).
Proof.
  intros whisper s.
  apply (Model_Transcribe_segments id whisper s (mkModel DefaultConfig true) [1%Z]);
    reflexivity.
Defined.

(* --------------------------------------------------------------------- *)
(** ** The connection handler *)
(* --------------------------------------------------------------------- *)

Section HandlerLoop.

Variable unmarshal : gostring -> option (list float32).

(** With the service running and the queue open, the read loop over
    messages is a run of [ProcessAudio] over the messages that parse. *)
Lemma handleWebSocket_loop_messages conn (messages : list gostring) : forall s,
  running s = true -> chan_closed (audioQueue s) = false ->
  handleWebSocket_loop unmarshal s conn (map ReadMessage messages)
  = (foldl (fun s d => fst (ProcessAudio s d)) s (omap unmarshal messages), Reading).
Proof.
  induction messages as [|message messages IH]; intros s Hrun Hopen; [done|].
  cbn [map handleWebSocket_loop]. unfold handleWebSocket_read.
  change (omap unmarshal (message :: messages))
    with (match unmarshal message with
          | Some d => d :: omap unmarshal messages
          | None => omap unmarshal messages
          end).
  destruct (unmarshal message) as [d|]; cbn [foldl]; [|by apply IH].
  destruct (ProcessAudio_shape s d) as [Hs | (_ & _ & _ & Ho & Hs)].
  - assert (exists o, snd (ProcessAudio s d) = Returns o) as [o Ho].
    { unfold ProcessAudio. rewrite Hrun, Hopen. cbn [negb].
      destruct (chan_has_room (audioQueue s)); eauto. }
    destruct (ProcessAudio s d) as [s' out]. cbn in Hs, Ho. subst. by apply IH.
  - destruct (ProcessAudio s d) as [s' out]. cbn in Hs, Ho. subst. by apply IH.
Qed.

Lemma close_closed_id (m : gmap nat Conn) conn :
  conn_closed (m !!! conn) = true -> <[conn := Conn_Close (m !!! conn)]> m = m.
Proof.
  intros Hc. rewrite lookup_total_alt in *.
  destruct (m !! conn) as [c|] eqn:Hm; [|done]. cbn in *.
  rewrite Conn_Close_closed by done. by apply insert_id.
Qed.

End HandlerLoop.

(** A handler on a connection whose writes succeed, while the service is
    running: the peer is sent the config message first; then of the
    messages read, those that do not parse are skipped and the chunks of
    the others go to the ingestion queue in the order read, as far as the
    queue has room; the connection stays open and registered and the
    handler keeps reading. *)
Theorem handleWebSocket_forwards (unmarshal : gostring -> option (list float32))
    (s : WhisperService) (conn : nat) (messages : list gostring) :
  snd (WriteJSON (sockets s !!! conn) (MsgConfig (config s))) = false ->
  running s = true -> chan_closed (audioQueue s) = false ->
  length (chan_buf (audioQueue s)) <= chan_cap (audioQueue s) ->
  exists s',
    handleWebSocket unmarshal s conn (map ReadMessage messages) = (s', Reading) /\
    conn_written (sockets s' !!! conn)
    = conn_written (sockets s !!! conn) ++ [MsgConfig (config s)] /\
    conn_closed (sockets s' !!! conn) = false /\
    connections s' = connections s /\
    chan_buf (audioQueue s')
    = take (chan_cap (audioQueue s)) (chan_buf (audioQueue s) ++ omap unmarshal messages).
Proof.
  intros Hok Hrun Hopen Hle. pose proof Hok as Hok'. rewrite WriteJSON_fails in Hok'.
  unfold write_fails in Hok'. apply orb_false_iff in Hok' as [Hcl Hbr].
  unfold handleWebSocket, handleWebSocket_start.
  unfold WriteJSON in *. rewrite Hcl, Hbr in *. cbn [orb].
  set (c := mkConn _ _ _). set (s0 := set_sockets (<[conn := c]> (sockets s)) s).
  rewrite handleWebSocket_loop_messages; [|done|done].
  destruct (ProcessAudio_foldl s0 (omap unmarshal messages) Hrun Hopen Hle)
    as (Hb & Hs & _ & _).
  cbn zeta in *. eexists. split; [done|].
  set (s' := foldl _ s0 _) in *. rewrite Hs. cbn.
  rewrite lookup_total_insert_eq. by repeat split.
Qed.

Lemma handleWebSocket_forwards_witness :
  let unmarshal := fun m : gostring =>
    if bool_decide (m = lit "[0.5]") then Some [0x3F000000%Z] else None in
  let s := AddWebSocket (Initialize (NewWhisperService None ∅)) 7 in
  let messages := [lit "[0.5]"; lit "{oops"; lit "[0.5]"] in
  exists s',
    handleWebSocket unmarshal s 7 (map ReadMessage messages) = (s', Reading) /\
    conn_written (sockets s' !!! 7)
    = conn_written (sockets s !!! 7) ++ [MsgConfig (config s)] /\
    conn_closed (sockets s' !!! 7) = false /\
    connections s' = connections s /\
    chan_buf (audioQueue s')
    = take (chan_cap (audioQueue s)) (chan_buf (audioQueue s) ++ omap unmarshal messages).
Proof.
  intros unmarshal s messages.
  apply (handleWebSocket_forwards unmarshal s 7 messages);
    [reflexivity | reflexivity | reflexivity | cbn; lia].
Defined.

(** The handler ends when a read fails: the connection is taken out of the
    registry and closed, and nothing else changes. When the broadcaster
    has already pruned and closed the connection after a failed write and
    the handler's read then fails, its teardown changes nothing at all:
    the connection is removed and closed once. *)
Theorem handleWebSocket_ends (unmarshal : gostring -> option (list float32))
    (s : WhisperService) (conn : nat) :
  (let s' := fst (handleWebSocket_read unmarshal s conn ReadFails) in
   snd (handleWebSocket_read unmarshal s conn ReadFails) = Returned /\
   (conn ∉ dom (connections s')) /\
   conn_closed (sockets s' !!! conn) = true /\
   conn_written (sockets s' !!! conn) = conn_written (sockets s !!! conn) /\
   same_core s s' /\
   (forall other, other <> conn ->
      connections s' !! other = connections s !! other /\
      sockets s' !!! other = sockets s !!! other)) /\
  (forall result,
     snd (WriteJSON (sockets s !!! conn) (MsgResult result)) = true ->
     conn ∈ dom (connections s) ->
     handleWebSocket_read unmarshal (BroadcastResult s result) conn ReadFails
     = (BroadcastResult s result, Returned)).
Proof.
  split.
  - cbn. rewrite lookup_total_insert_eq. repeat split; try done.
    + rewrite dom_delete. set_unfold. tauto.
    + by rewrite lookup_delete_ne.
    + by rewrite lookup_total_insert_ne.
  - intros result Hf Hin. rewrite WriteJSON_fails in Hf.
    set (s' := BroadcastResult s result).
    assert (Hs : sockets s' !!! conn = Conn_Close (sockets s !!! conn)).
    { subst s'. rewrite BroadcastResult_sockets, decide_True by done.
      unfold after_delivery. by rewrite Hf. }
    assert (Hc : connections s' !! conn = None).
    { subst s'. by rewrite BroadcastResult_connections, Hf. }
    assert (Hcl : conn_closed (sockets s' !!! conn) = true) by by rewrite Hs.
    unfold handleWebSocket_read. f_equal.
    unfold handleWebSocket_teardown, RemoveWebSocket. cbn.
    rewrite close_closed_id by done. rewrite delete_id by done. by destruct s'.
Qed.

Lemma handleWebSocket_ends_witness :
  let s := AddWebSocket
             (Initialize (NewWhisperService None {[7 := mkConn false true []]})) 7 in
  let result := mkResult (lit "hi alfred ") true true zeroFloat64 in
  handleWebSocket_read (fun _ => None) (BroadcastResult s result) 7 ReadFails
  = (BroadcastResult s result, Returned).
Proof.
  intros s result.
  apply (proj2 (handleWebSocket_ends (fun _ => None) s 7) result); [reflexivity|].
  subst s. cbn. rewrite dom_insert. apply elem_of_union_l. by apply elem_of_singleton.
Defined.

(* --------------------------------------------------------------------- *)
(** ** handler.go *)
(* --------------------------------------------------------------------- *)



Lemma init_all_Some loadModel socks service cfgs :
  init_all loadModel socks (Some service) cfgs = Some service.
Proof. induction cfgs as [|cfg cfgs IH]; [done | exact IH]. Qed.

(** The package keeps the first service that could be made. A call of
    [InitWhisperService] whose model is not found or does not load returns
    that error and leaves the variable nil, so a later call can succeed;
    the first call whose model loads returns nil and stores a running
    service with that configuration; every call after that returns nil
    and changes nothing, whatever configuration it brings. *)
Theorem InitWhisperService_first_wins (loadModel : Config -> option initError)
    (socks : gmap nat Conn) (failing : list (option Config)) (cfg : option Config)
    (later : list (option Config)) :
  Forall (fun c => loadModel (default DefaultConfig c) <> None) failing ->
  loadModel (default DefaultConfig cfg) = None ->
  (forall c, c ∈ failing ->
     exists e, loadModel (default DefaultConfig c) = Some e /\
       InitWhisperService loadModel None socks c = (None, Some e)) /\
  init_all loadModel socks None failing = None /\
  InitWhisperService loadModel None socks cfg
  = (Some (Initialize (NewWhisperService cfg socks)), None) /\
  (exists service,
     init_all loadModel socks None (failing ++ cfg :: later) = Some service /\
     service = Initialize (NewWhisperService cfg socks) /\
     running service = true /\ config service = default DefaultConfig cfg) /\
  (forall service c, InitWhisperService loadModel (Some service) socks c
                     = (Some service, None)).
Proof.
  intros Hfail Hload.
  assert (Hone : forall c, c ∈ failing ->
            exists e, loadModel (default DefaultConfig c) = Some e /\
              InitWhisperService loadModel None socks c = (None, Some e)).
  { intros c Hc. rewrite Forall_forall in Hfail. specialize (Hfail c Hc).
    unfold InitWhisperService, NewWhisperService_or_error.
    destruct (loadModel (default DefaultConfig c)) as [e|]; [eauto | done]. }
  assert (Hnone : init_all loadModel socks None failing = None).
  { clear Hfail. induction failing as [|c failing IH]; [done|].
    unfold init_all in *. cbn [foldl].
    destruct (Hone c) as (e & _ & ->); [by left|]. cbn [fst].
    apply IH. intros c' Hc'. apply Hone. by right. }
  assert (Hcfg : InitWhisperService loadModel None socks cfg
                 = (Some (Initialize (NewWhisperService cfg socks)), None)).
  { unfold InitWhisperService, NewWhisperService_or_error. by rewrite Hload. }
  split; [done|]. split; [done|]. split; [done|]. split; [|done].
  exists (Initialize (NewWhisperService cfg socks)).
  unfold init_all in *. rewrite foldl_app, Hnone. cbn [foldl]. rewrite Hcfg. cbn [fst].
  split; [apply init_all_Some | done].
Qed.

Lemma InitWhisperService_first_wins_witness :
  let loadModel := fun c : Config =>
    if bool_decide (ModelPath c = lit "/models/ggml-base.en.bin")
    then None else Some ModelFileNotFound in
  let good := Some (mkConfig (lit "/models/ggml-base.en.bin") 4 30 16000 (lit "en")
                             true 0%Z (lit "alfred")) in
  (forall c, c ∈ [None] ->
     exists e, loadModel (default DefaultConfig c) = Some e /\
       InitWhisperService loadModel None ∅ c = (None, Some e)) /\
  init_all loadModel ∅ None [None] = None /\
  InitWhisperService loadModel None ∅ good
  = (Some (Initialize (NewWhisperService good ∅)), None) /\
  (exists service,
     init_all loadModel ∅ None ([None] ++ good :: [None; good]) = Some service /\
     service = Initialize (NewWhisperService good ∅) /\
     running service = true /\ config service = default DefaultConfig good) /\
  (forall service c, InitWhisperService loadModel (Some service) ∅ c
                     = (Some service, None)).
Proof.
  intros loadModel good.
  apply (InitWhisperService_first_wins loadModel ∅ [None] good [None; good]).
  - repeat constructor. by vm_compute.
  - by vm_compute.
Defined.

(* --------------------------------------------------------------------- *)
(** ** tts: what is spoken *)
(* --------------------------------------------------------------------- *)

Section Bounds.

Lemma isTerminator_length t : isTerminator t -> 2 <= length t.
Proof.
  intros (p & w & -> & Hp & Hw & _). rewrite length_app.
  destruct p; [done|]. destruct w; [done|]. cbn. lia.
Qed.

(** Joining the first [k] pieces with [". "] gives no more bytes than the
    text the pieces were split from. *)
Lemma Join_take_weave pieces : forall seps k,
  Forall isTerminator seps -> length pieces = S (length seps) ->
  length (Join (take k pieces) (lit ". ")) <= length (weave pieces seps).
Proof.
  induction pieces as [|p pieces IH]; intros seps k Hseps Hlen; [by destruct k|].
  destruct k as [|k]; [cbn; lia|]. cbn [take].
  destruct seps as [|t seps].
  { destruct pieces; [|done]. by destruct k. }
  cbn [weave]. apply Forall_cons in Hseps as [Ht Hseps].
  apply isTerminator_length in Ht.
  specialize (IH seps k Hseps ltac:(cbn in Hlen; lia)).
  destruct (take k pieces) as [|e r] eqn:Htake.
  - cbn. rewrite !length_app. lia.
  - change (Join (p :: e :: r) (lit ". ")) with (p ++ lit ". " ++ Join (e :: r) (lit ". ")).
    rewrite !length_app. cbn [length lit] in *.
    change (length (lit ". ")) with 2. lia.
Qed.

Lemma Cut_before_length s sep before after :
  Cut s sep = Some (before, after) -> length before <= length s.
Proof.
  intros ->%Cut_Some. rewrite length_app. lia.
Qed.

Lemma findVerbal_length text content :
  TTS.findVerbal text = Some content -> length content <= length text.
Proof.
  intros (pre & post & -> & _)%findVerbal_Some. rewrite !length_app. lia.
Qed.

End Bounds.

(** [ExtractVerbalResponse] gives text that is ready to be spoken:
    whatever the input, the result is no longer than the input and has
    no white space left at either end (trimming it again changes
    nothing). *)
Theorem ExtractVerbalResponse_bounds (text : gostring) :
  length (TTS.ExtractVerbalResponse text) <= length text /\
  TrimSpace (TTS.ExtractVerbalResponse text) = TTS.ExtractVerbalResponse text.
Proof.
  unfold TTS.ExtractVerbalResponse.
  destruct (TTS.findVerbal text) as [content|] eqn:Hv.
  { split; [|apply TrimSpace_idemp].
    pose proof (TrimSpace_length content). pose proof (findVerbal_length _ _ Hv). lia. }
  cbn zeta. rewrite Split_hd by done.
  set (firstParagraph := match Cut text [TTS.newline; TTS.newline] with
                         | Some (before, _) => before
                         | None => text
                         end).
  assert (length firstParagraph <= length text) as Hfirst.
  { unfold firstParagraph.
    destruct (Cut text [TTS.newline; TTS.newline]) as [[before after]|] eqn:Hcut; [|done].
    by eapply Cut_before_length. }
  destruct (length firstParagraph <? 1000).
  { split; [|apply TrimSpace_idemp]. pose proof (TrimSpace_length firstParagraph). lia. }
  pose proof (regexpSplit_6_nonempty firstParagraph) as Hne.
  apply Nat.ltb_lt in Hne as ->.
  split; [|apply TrimSpace_idemp].
  destruct (regexpSplit_weave 5 firstParagraph) as (seps & Hseps & Hlen & Hweave).
  etransitivity; [apply TrimSpace_length|].
  etransitivity; [apply (Join_take_weave _ seps); done|].
  by rewrite <- Hweave.
Qed.

Section Blank.

Lemma Cut_skip (pre rest : gostring) (h : ascii) (sep' : gostring) :
  Forall (fun c => c <> h) pre ->
  Cut (pre ++ (h :: sep') ++ rest) (h :: sep') = Some (pre, rest).
Proof.
  induction 1 as [|c pre Hc _ IH].
  - pose proof (HasPrefix_app (h :: sep') rest) as Hp.
    pose proof (drop_app_length (h :: sep') rest) as Hd.
    cbn [app] in *. cbn [Cut]. by rewrite Hp, Hd.
  - change ((c :: pre) ++ (h :: sep') ++ rest) with (c :: (pre ++ (h :: sep') ++ rest)).
    cbn [Cut HasPrefix]. rewrite IH.
    destruct (Ascii.eqb_spec c h) as [->|_]; [done|]. done.
Qed.

Lemma asciiSpace_not_bracket c : asciiSpace c = true -> c <> "["%char.
Proof. by intros H ->. Qed.

End Blank.

(** [SynthesizeHandler] refuses a request whose text is empty with 400,
    but the check comes before the verbal part is extracted: a request
    that asks for extraction and whose [[VERBAL]] block holds white space
    only passes the check, and the synthesizer is run on the empty
    string; the answer is what it makes of that. *)
Theorem SynthesizeHandler_blank_verbal (Synthesize : gostring -> option gostring)
    (req : TTS.TTSRequest) (pre content post : gostring) :
  TTS.ExtractVerbal req = true ->
  TTS.Text req = pre ++ TTS.openTag ++ content ++ TTS.closeTag ++ post ->
  Forall (fun c => c <> "["%char) pre ->
  Forall (fun c => asciiSpace c = true) content ->
  TTS.textToSpeak req = [] /\
  TTS.SynthesizeHandler Synthesize true (lit "POST") (Some req)
  = match Synthesize [] with
    | None => TTS.SynthesisFailed
    | Some audioData => TTS.Audio audioData
    end /\
  TTS.SynthesizeHandler Synthesize true (lit "POST")
    (Some (TTS.mkTTSRequest [] (TTS.ExtractVerbal req))) = TTS.TextRequired.
Proof.
  intros Hextract Htext Hpre Hblank.
  assert (TTS.textToSpeak req = []) as Hspeak.
  { assert (Cut (TTS.Text req) TTS.openTag
            = Some (pre, content ++ TTS.closeTag ++ post)) as Hopen.
    { rewrite Htext. exact (Cut_skip pre _ "["%char (lit "[VERBAL]]") Hpre). }
    assert (Cut (content ++ TTS.closeTag ++ post) TTS.closeTag
            = Some (content, post)) as Hclose.
    { apply (Cut_skip content post "["%char (lit "[/VERBAL]]")).
      eapply Forall_impl; [exact Hblank|]. apply asciiSpace_not_bracket. }
    unfold TTS.textToSpeak, TTS.ExtractVerbalResponse, TTS.findVerbal.
    rewrite Hextract, Hopen, Hclose. by apply TrimSpace_blank. }
  split; [done|]. split; [|done].
  unfold TTS.SynthesizeHandler. rewrite Hspeak.
  rewrite bool_decide_eq_true_2 by done. cbn [negb].
  rewrite bool_decide_eq_false_2; [done|].
  rewrite Htext. by destruct pre.
Qed.

Lemma SynthesizeHandler_blank_verbal_witness :
  let Synthesize := fun text : gostring =>
    if bool_decide (text = []) then None else Some (lit "pcm") in
  let req := TTS.mkTTSRequest (lit "Done. [[VERBAL]]  [[/VERBAL]]") true in
  TTS.textToSpeak req = [] /\
  TTS.SynthesizeHandler Synthesize true (lit "POST") (Some req)
  = match Synthesize [] with
    | None => TTS.SynthesisFailed
    | Some audioData => TTS.Audio audioData
    end /\
  TTS.SynthesizeHandler Synthesize true (lit "POST")
    (Some (TTS.mkTTSRequest [] (TTS.ExtractVerbal req))) = TTS.TextRequired.
Proof.
  intros Synthesize req.
  apply (SynthesizeHandler_blank_verbal Synthesize req (lit "Done. ") (lit "  ") []).
  - reflexivity.
  - reflexivity.
  - repeat constructor; by vm_compute.
  - repeat constructor.
Defined.

(* --------------------------------------------------------------------- *)
(** ** What the service emits *)
(* --------------------------------------------------------------------- *)

Section Emission.

Variable mapToLower : gostring -> gostring.
Variable whisper : list float32 -> whisperRun.
Variable unmarshal : gostring -> option (list float32).
Variable decode : gostring -> option (list float32).

Local Abbreviation do_step := (do_step mapToLower whisper unmarshal decode).
Local Abbreviation do_steps := (do_steps mapToLower whisper unmarshal decode).

Lemma chan_recv_final (c c' : chan TranscriptionResult) v :
  Forall final_result (chan_buf c) -> chan_recv zeroResult c = Some (v, c') ->
  Forall final_result (chan_buf c').
Proof.
  intros Hf Hrecv. apply chan_recv_shape in Hrecv as (_ & _ & [Hb | (_ & -> & _)]); [|done].
  rewrite Hb in Hf. by apply Forall_cons in Hf as [_ ?].
Qed.

(** A receive from an open channel takes a queued result. *)
Lemma chan_recv_open (c c' : chan TranscriptionResult) v :
  chan_closed c = false -> chan_recv zeroResult c = Some (v, c') ->
  chan_buf c = v :: chan_buf c'.
Proof.
  intros Ho Hrecv. apply chan_recv_shape in Hrecv as (_ & _ & [Hb | (_ & _ & _ & Hc)]);
    [done | congruence].
Qed.

Lemma ProcessAudio_sockets s d : sockets (fst (ProcessAudio s d)) = sockets s.
Proof. by destruct (ProcessAudio_shape s d) as [-> | (_ & _ & _ & _ & ->)]. Qed.

Lemma transcribeAudio_sockets s d :
  sockets (fst (transcribeAudio mapToLower whisper s d)) = sockets s.
Proof.
  by destruct (transcribeAudio_shape mapToLower whisper s d) as [-> | (_ & r & ->)].
Qed.

Lemma frames_final_insert (m : gmap nat Conn) conn c :
  frames_final m -> Forall final_frame (conn_written c) -> frames_final (<[conn := c]> m).
Proof.
  intros Hm Hc other. destruct (decide (other = conn)) as [->|Hne].
  - by rewrite lookup_total_insert_eq.
  - by rewrite lookup_total_insert_ne.
Qed.

Lemma frames_final_BroadcastResult s result :
  IsFinal result = true -> frames_final (sockets s) ->
  frames_final (sockets (BroadcastResult s result)).
Proof.
  intros Hr Hs conn. rewrite BroadcastResult_sockets.
  destruct (decide _); [|done]. unfold after_delivery.
  destruct (write_fails _); cbn; [done|].
  apply Forall_app. split; [done|]. by repeat constructor.
Qed.

Lemma frames_final_teardown s conn :
  frames_final (sockets s) -> frames_final (sockets (handleWebSocket_teardown s conn)).
Proof.
  intros Hs. unfold handleWebSocket_teardown, RemoveWebSocket. cbn.
  apply frames_final_insert; [done|]. cbn. apply Hs.
Qed.

Lemma frames_final_Close s :
  frames_final (sockets s) -> frames_final (sockets (fst (Close s))).
Proof.
  intros Hs conn. destruct (Close_registry s) as [_ ->]. rewrite close_all_lookup.
  destruct (decide _); cbn; apply Hs.
Qed.

Lemma frames_final_start s conn :
  frames_final (sockets s) -> frames_final (sockets (fst (handleWebSocket_start s conn))).
Proof.
  intros Hs. unfold handleWebSocket_start, WriteJSON.
  destruct (conn_closed _ || conn_broken _); cbn [fst].
  - by apply frames_final_teardown.
  - cbn. apply frames_final_insert; [done|]. cbn.
    apply Forall_app. split; [done|]. by repeat constructor.
Qed.

(** The results channel is never opened again. *)
Lemma do_step_stays_closed s st :
  chan_closed (results s) = true -> chan_closed (results (do_step s st)) = true.
Proof.
  intros Hc. destruct st as [c| |conn|conn r|body]; cbn [Whisper.do_step].
  - by apply exec_stays_closed.
  - unfold broadcastResults_body.
    destruct (chan_recv zeroResult (results s)) as [[result r]|] eqn:Hrecv; [|done].
    cbn. destruct (BroadcastResult_same_core (set_results r s) result) as (_&_&_&->&_).
    apply chan_recv_shape in Hrecv as (_ & Hcl & _). cbn. congruence.
  - by destruct (handleWebSocket_start_core s conn) as (_&_&_&->&_).
  - unfold handleWebSocket_read. destruct r as [|message]; [done|].
    destruct (unmarshal message) as [d|]; [|done].
    destruct (ProcessAudio_keeps s d) as [Hr _].
    destruct (ProcessAudio s d) as [s' [o|p|]]; cbn in *; congruence.
  - unfold TranscribeHandler. rewrite bool_decide_eq_true_2 by done. cbn [negb].
    destruct (decode body) as [d|]; [|done].
    destruct (ProcessAudio_keeps s d) as [Hr _].
    destruct (ProcessAudio s d) as [s' [[e|]|p|]]; cbn in *; try congruence.
    destruct (chan_recv zeroResult (results s')) as [[result r]|] eqn:Hrecv; cbn;
      [|congruence].
    apply chan_recv_shape in Hrecv as (_ & Hcl & _). congruence.
Qed.

(** Only results that workers have made are queued. *)
Lemma do_step_results_final s st :
  Forall final_result (chan_buf (results s)) ->
  Forall final_result (chan_buf (results (do_step s st))).
Proof.
  intros Hq. destruct st as [c| |conn|conn r|body]; cbn [Whisper.do_step].
  - by apply exec_results_final.
  - unfold broadcastResults_body.
    destruct (chan_recv zeroResult (results s)) as [[result r]|] eqn:Hrecv; [|done].
    cbn. destruct (BroadcastResult_same_core (set_results r s) result) as (_&_&_&->&_).
    cbn. by eapply chan_recv_final.
  - by destruct (handleWebSocket_start_core s conn) as (_&_&_&->&_).
  - unfold handleWebSocket_read. destruct r as [|message]; [done|].
    destruct (unmarshal message) as [d|]; [|done].
    destruct (ProcessAudio_keeps s d) as [Hr _].
    destruct (ProcessAudio s d) as [s' [o|p|]]; cbn in *; by rewrite Hr.
  - unfold TranscribeHandler. rewrite bool_decide_eq_true_2 by done. cbn [negb].
    destruct (decode body) as [d|]; [|done].
    destruct (ProcessAudio_keeps s d) as [Hr _].
    destruct (ProcessAudio s d) as [s' [[e|]|p|]]; cbn in *; try by rewrite Hr.
    destruct (chan_recv zeroResult (results s')) as [[result r]|] eqn:Hrecv; cbn;
      [|by rewrite Hr].
    eapply chan_recv_final; [|exact Hrecv]. by rewrite Hr.
Qed.

(** With the results channel open, a step of the program sends final
    frames only. *)
Lemma do_step_frames_final s st :
  own_step st -> chan_closed (results s) = false ->
  Forall final_result (chan_buf (results s)) ->
  frames_final (sockets s) -> frames_final (sockets (do_step s st)).
Proof.
  intros Hown Hopen Hq Hs. destruct st as [c| |conn|conn r|body]; cbn [Whisper.do_step].
  - destruct c; cbn [exec].
    + unfold Initialize. by destruct (running s).
    + by rewrite ProcessAudio_sockets.
    + by rewrite transcribeAudio_sockets.
    + done.
    + done.
    + by destruct (Hown result).
    + by apply frames_final_Close.
  - unfold broadcastResults_body.
    destruct (chan_recv zeroResult (results s)) as [[result r]|] eqn:Hrecv; [|done].
    cbn. apply frames_final_BroadcastResult; [|done].
    apply chan_recv_open in Hrecv; [|done]. rewrite Hrecv in Hq.
    by apply Forall_cons in Hq as [[? _] _].
  - by apply frames_final_start.
  - unfold handleWebSocket_read. destruct r as [|message].
    { by apply frames_final_teardown. }
    destruct (unmarshal message) as [d|]; [|done].
    pose proof (ProcessAudio_sockets s d) as Hsock.
    destruct (ProcessAudio s d) as [s' [o|p|]]; cbn [fst] in *; try by rewrite Hsock.
    apply frames_final_teardown. by rewrite Hsock.
  - unfold TranscribeHandler. rewrite bool_decide_eq_true_2 by done. cbn [negb].
    destruct (decode body) as [d|]; [|done].
    pose proof (ProcessAudio_sockets s d) as Hsock.
    destruct (ProcessAudio s d) as [s' [[e|]|p|]]; cbn in *; try by rewrite Hsock.
    destruct (chan_recv zeroResult (results s')) as [[result r]|]; cbn; by rewrite Hsock.
Qed.

Lemma do_step_final_while_open s st :
  own_step st -> final_while_open s -> final_while_open (do_step s st).
Proof.
  intros Hown [Hq Hf]. split; [by apply do_step_results_final|].
  intros Hopen. destruct (chan_closed (results s)) eqn:Hc.
  - rewrite do_step_stays_closed in Hopen by done. discriminate.
  - apply do_step_frames_final; auto.
Qed.

Lemma do_steps_final_while_open cfg socks sts :
  frames_final socks -> Forall own_step sts ->
  final_while_open (do_steps (NewWhisperService cfg socks) sts).
Proof.
  intros Hsocks Hown. induction sts as [|st sts IH] using rev_ind.
  - split; [by constructor | done].
  - apply Forall_app in Hown as [Hown Hst]. apply Forall_cons in Hst as [Hst _].
    rewrite do_steps_snoc. apply do_step_final_while_open; auto.
Qed.

End Emission.

(** C10, as amended. A result that a worker emits has [IsFinal = true]
    and the zero [Confidence], which the JSON encoding leaves out, and the
    worker appends it to the results channel. On a service reached from a
    new one by any steps of the program, every queued result is of that
    kind; as long as the results channel is open, no connection has been
    sent a result with [IsFinal = false] and an HTTP transcribe request is
    answered with such a result only. Once [Close] has closed the channel
    and it is drained, a turn of the broadcaster that receives from it
    broadcasts the zero value, whose [IsFinal] is false. *)
Theorem emitted_results_final (mapToLower : gostring -> gostring)
    (whisper : list float32 -> whisperRun)
    (unmarshal decode : gostring -> option (list float32))
    (cfg : option Config) (socks : gmap nat Conn) (sts : list step) :
  frames_final socks -> Forall own_step sts ->
  let s := do_steps mapToLower whisper unmarshal decode (NewWhisperService cfg socks) sts in
  (forall (s0 s' : WhisperService) (audioData : list float32) (r : TranscriptionResult),
     transcribeAudio mapToLower whisper s0 audioData = (s', Returns (Emitted r)) ->
     IsFinal r = true /\ Confidence r = zeroFloat64 /\
     jsonKeys r = [lit "text"; lit "isFinal"; lit "isWakeWord"] /\
     chan_buf (results s') = chan_buf (results s0) ++ [r]) /\
  Forall (fun r => IsFinal r = true /\ Confidence r = zeroFloat64) (chan_buf (results s)) /\
  (chan_closed (results s) = false ->
     (forall conn r, MsgResult r ∈ conn_written (sockets s !!! conn) -> IsFinal r = true) /\
     (forall body result,
        snd (TranscribeHandler decode (Some s) (lit "POST") body) = Returns (OK result) ->
        IsFinal result = true /\ Confidence result = zeroFloat64)) /\
  (chan_closed (results s) = true -> chan_buf (results s) = [] ->
     broadcastResults_body s RecvResult = Some (BroadcastResult s zeroResult) /\
     IsFinal zeroResult = false).
Proof.
  intros Hsocks Hown s.
  destruct (do_steps_final_while_open mapToLower whisper unmarshal decode cfg socks sts
              Hsocks Hown) as [Hq Hf].
  fold s in Hq, Hf.
  split; [|split; [exact Hq|split]].
  - intros s0 s' audioData r H.
    apply transcribeAudio_emitted in H as (m & text & _ & _ & -> & _ & ->).
    by repeat split.
  - intros Hopen. split.
    + intros conn r Hin. specialize (Hf Hopen conn).
      rewrite Forall_forall in Hf. exact (Hf _ Hin).
    + intros body result. unfold TranscribeHandler.
      rewrite bool_decide_eq_true_2 by done. cbn [negb].
      destruct (decode body) as [d|]; [|done].
      destruct (ProcessAudio_keeps s d) as [Hr _].
      destruct (ProcessAudio s d) as [s' [[e|]|p|]]; cbn in *; try done.
      destruct (chan_recv zeroResult (results s')) as [[res r]|] eqn:Hrecv; cbn; [|done].
      intros [= <-]. rewrite Hr in Hrecv. apply chan_recv_shape in Hrecv as (_ & _ & Hcase).
      destruct Hcase as [Hb | (_ & _ & _ & Hc)]; [|congruence].
      rewrite Hb in Hq. by apply Forall_cons in Hq as [? _].
  - intros Hclosed Hempty. split; [|done].
    unfold broadcastResults_body, chan_recv. rewrite Hempty, Hclosed.
    by destruct s.
Qed.

(** A service that has taken audio and transcribed one window, with a
    connection that has been sent the result. *)
Lemma emitted_results_final_witness :
  let whisper := fun _ : list float32 => Segments [lit "turn it"; lit "off"] in
  let sts := [StepCall CallInitialize; StepCall (CallAddWebSocket 7);
              StepHandlerStart 7; StepCall (CallTranscribeAudio [1%Z; 2%Z]);
              StepBroadcastRecv] in
  let s := do_steps id whisper (fun _ => None) (fun _ => None)
             (NewWhisperService None ∅) sts in
  conn_written (sockets s !!! 7)
  = [MsgConfig DefaultConfig; MsgResult (mkResult (lit "turn it off ") true false zeroFloat64)]
  /\ forall conn r, MsgResult r ∈ conn_written (sockets s !!! conn) -> IsFinal r = true.
Proof.
  intros whisper sts s. split; [by vm_compute|].
  assert (Hsocks : frames_final (∅ : gmap nat Conn)).
  { intros conn. rewrite lookup_total_empty. constructor. }
  assert (Hown : Forall own_step sts).
  { repeat constructor; intros r; discriminate. }
  assert (Hopen : chan_closed (results s) = false) by by vm_compute.
  apply (proj1 (proj1 (proj2 (proj2
           (emitted_results_final id whisper (fun _ => None) (fun _ => None)
              None ∅ sts Hsocks Hown))) Hopen)).
Defined.

(** After [Close] the results channel is closed; [Initialize] starts a
    broadcaster again, and a connection added then is sent the zero
    result, whose [IsFinal] is false. *)
Lemma emitted_results_final_counterexample :
  let sts := [StepCall CallInitialize; StepCall CallClose; StepCall CallInitialize;
              StepCall (CallAddWebSocket 7); StepBroadcastRecv] in
  let s := do_steps id (fun _ => ProcessFails) (fun _ => None) (fun _ => None)
             (NewWhisperService None ∅) sts in
  running s = true /\
  conn_written (sockets s !!! 7) = [MsgResult zeroResult] /\
  IsFinal zeroResult = false.
Proof. by vm_compute. Qed.
